(** * hpp-core: paths, time parameterization and the problem solver registry

    Shallow embedding of
      - [include/hpp/core/path.hh]          (class [Path]),
      - [include/hpp/core/problem-solver.hh] (class [ProblemSolver]),
      - [src/times-frame-function.hh]       (struct [TimesFrameFunction]),
    followed by the properties established about them. *)

From Stdlib Require Import ZArith Bool List Ring.
From stdpp Require Import gmap strings sorting.
Import ListNotations.

Local Open Scope string_scope.

(** ** Scalars

    [value_type] is [double] in the sources.  The model is parametric in
    the scalar type: the code only uses its arithmetic and its two
    comparison operators. *)

Class Scalar (V : Type) : Type := {
  s_zero : V;
  s_one : V;
  s_add : V -> V -> V;
  s_mul : V -> V -> V;
  s_sub : V -> V -> V;
  s_opp : V -> V;
  s_ltb : V -> V -> bool;   (* operator<  *)
  s_leb : V -> V -> bool    (* operator<= *)
}.

Declare Scope scalar_scope.
Delimit Scope scalar_scope with S.
Infix "+" := s_add : scalar_scope.
Infix "*" := s_mul : scalar_scope.
Infix "-" := s_sub : scalar_scope.
Notation "- x" := (s_opp x) : scalar_scope.
Infix "<?" := s_ltb : scalar_scope.
Infix "<=?" := s_leb : scalar_scope.
Notation "0" := s_zero : scalar_scope.
Notation "1" := s_one : scalar_scope.
Notation "2" := (s_add s_one s_one) : scalar_scope.

(** [std::max (a, b)] is [(a < b) ? b : a]. *)
Definition std_max {V} `{Scalar V} (a b : V) : V :=
  if s_ltb a b then b else a.

(** [std::min (a, b)] is [(b < a) ? b : a]. *)
Definition std_min {V} `{Scalar V} (a b : V) : V :=
  if s_ltb b a then b else a.

(** [std::abs], used to speak about magnitudes. *)
Definition s_abs {V} `{Scalar V} (a : V) : V :=
  if s_ltb a s_zero then s_opp a else a.

(** The laws of an ordered commutative ring, the idealisation of [double]
    under which order and algebra facts are established. *)
Class ScalarLaws (V : Type) `{Scalar V} : Prop := {
  s_ring : ring_theory s_zero s_one s_add s_mul s_sub s_opp (@eq V);
  s_leb_refl : forall a, s_leb a a = true;
  s_leb_trans : forall a b c, s_leb a b = true -> s_leb b c = true -> s_leb a c = true;
  s_leb_antisym : forall a b, s_leb a b = true -> s_leb b a = true -> a = b;
  s_leb_total : forall a b, s_leb a b = true \/ s_leb b a = true;
  s_ltb_leb : forall a b, s_ltb a b = negb (s_leb b a);
  s_add_mono : forall a b c, s_leb a b = true -> s_leb (s_add a c) (s_add b c) = true;
  s_mul_nonneg : forall a b, s_leb s_zero a = true -> s_leb s_zero b = true ->
                             s_leb s_zero (s_mul a b) = true
}.

#[export] Instance Z_Scalar : Scalar Z := {|
  s_zero := 0%Z; s_one := 1%Z;
  s_add := Z.add; s_mul := Z.mul; s_sub := Z.sub; s_opp := Z.opp;
  s_ltb := Z.ltb; s_leb := Z.leb
|}.

(** ** Control effects: assertions and exceptions *)

Inductive exception : Type :=
| hpp_Exception (msg : string)
| std_logic_error (msg : string)
| std_runtime_error (msg : string)
| projection_error (msg : string).

Inductive outcome (A : Type) : Type :=
| Ok (a : A)
| AssertFailed (expr : string)
| Thrown (e : exception).
Arguments Ok {A} a.
Arguments AssertFailed {A} expr.
Arguments Thrown {A} e.

#[export] Instance outcome_ret : MRet outcome := fun A a => Ok a.

#[export] Instance outcome_bind : MBind outcome := fun A B f m =>
  match m with
  | Ok a => f a
  | AssertFailed e => AssertFailed e
  | Thrown e => Thrown e
  end.

(** What the build and the allocator contribute to a run: whether
    [assert] is compiled out, and the indeterminate contents of a freshly
    allocated vector of a given size. *)
Record Runtime (V : Type) : Type := {
  NDEBUG : bool;
  fresh_vector : Z -> list V
}.
Arguments NDEBUG {V} r.
Arguments fresh_vector {V} r n.

Definition assert_ {V} (rt : Runtime V) (cond : bool) (expr : string) : outcome unit :=
  if NDEBUG rt then Ok tt else if cond then Ok tt else AssertFailed expr.

(** ** Path (path.hh) *)

Module PathModel.
Section WithScalar.
Context {V : Type} `{Scalar V}.

Definition value_type : Type := V.
Definition size_type : Type := Z.
Definition vector_t : Type := list V.
Definition Configuration_t : Type := list V.
Definition interval_t : Type := (V * V)%type.

(** [Eigen]'s [v.size ()] and [v *= s]. *)
Definition vsize (v : vector_t) : size_type := Z.of_nat (length v).
Definition vscale (v : vector_t) (s : V) : vector_t := map (fun x => s_mul x s) v.

(** The interface of [TimeParameterization] used by [Path]. *)
Record TimeParameterization : Type := {
  tp_value : V -> V;
  tp_derivative : V -> V;
  tp_derivativeBound : V -> V -> V
}.

(** [ConstraintSet::apply] rewrites the configuration in place and
    reports success. *)
Record ConstraintSet : Type := {
  cs_apply : Configuration_t -> bool * Configuration_t
}.

(** Data members of [Path] together with the three virtual methods a
    concrete shape provides. *)
Record Path : Type := {
  paramRange_ : interval_t;
  timeRange_ : interval_t;
  outputSize_ : size_type;
  outputDerivativeSize_ : size_type;
  constraints_ : option ConstraintSet;
  timeParam_ : option TimeParameterization;
  impl_compute : Configuration_t -> V -> bool * Configuration_t;
  impl_derivative : vector_t -> V -> size_type -> outcome vector_t;
  impl_velocityBound : vector_t -> V -> V -> outcome vector_t
}.

(** The bodies [Path] gives to [impl_derivative] and [impl_velocityBound]. *)
Definition default_impl_derivative (_ : vector_t) (_ : V) (_ : size_type) : outcome vector_t :=
  Thrown (hpp_Exception "not implemented").
Definition default_impl_velocityBound (_ : vector_t) (_ _ : V) : outcome vector_t :=
  Thrown (hpp_Exception "not implemented").

Definition constraints (p : Path) : option ConstraintSet := constraints_ p.
Definition outputSize (p : Path) : size_type := outputSize_ p.
Definition outputDerivativeSize (p : Path) : size_type := outputDerivativeSize_ p.
Definition timeRange (p : Path) : interval_t := timeRange_ p.
Definition paramRange (p : Path) : interval_t := paramRange_ p.
Definition timeParameterization (p : Path) : option TimeParameterization := timeParam_ p.
Definition length (p : Path) : V := s_sub (snd (timeRange_ p)) (fst (timeRange_ p)).
Definition paramLength (p : Path) : V := s_sub (snd (paramRange_ p)) (fst (paramRange_ p)).

Definition paramAtTime (p : Path) (time : V) : V :=
  match timeParam_ p with
  | Some tp => tp_value tp time
  | None => time
  end.

Definition configAtParam (rt : Runtime V) (p : Path) (param : V) : Configuration_t * bool :=
  let result := fresh_vector rt (outputSize p) in
  let '(success, result) := impl_compute p result param in
  if negb success then (result, success)
  else match constraints_ p with
       | Some c => let '(success, result) := cs_apply c result in (result, success)
       | None => (result, success)
       end.

(** [Configuration_t operator () (time)], deprecated. *)
Definition call_deprecated (rt : Runtime V) (p : Path) (time : V) : Configuration_t :=
  let result := fresh_vector rt (outputSize p) in
  let '(_, result) := impl_compute p result (paramAtTime p time) in
  match constraints_ p with
  | Some c => let '(_, result) := cs_apply c result in result
  | None => result
  end.

(** [Configuration_t operator () (time, success)]. *)
Definition call_success (rt : Runtime V) (p : Path) (time : V) : Configuration_t * bool :=
  configAtParam rt p (paramAtTime p time).

(** [bool operator () (result, time)]. *)
Definition call_out (p : Path) (result : Configuration_t) (time : V) : bool * Configuration_t :=
  let '(success, result) := impl_compute p result (paramAtTime p time) in
  if negb success then (false, result)
  else match constraints_ p with
       | Some c => cs_apply c result
       | None => (true, result)
       end.

Definition at_ (p : Path) (time : V) (result : Configuration_t) : bool * Configuration_t :=
  impl_compute p result (paramAtTime p time).

Definition derivative (rt : Runtime V) (p : Path) (result : vector_t) (time : V)
  (order : size_type) : outcome vector_t :=
  match timeParam_ p with
  | Some tp =>
      _ ← assert_ rt (order =? 1)%Z "order == 1";
      result ← impl_derivative p result (tp_value tp time) order;
      mret (vscale result (tp_derivative tp time))
  | None => impl_derivative p result time order
  end.

Definition velocityBound (rt : Runtime V) (p : Path) (result : vector_t) (t0 t1 : V)
  : outcome vector_t :=
  _ ← assert_ rt (vsize result =? outputDerivativeSize p)%Z
        "result.size() == outputDerivativeSize()";
  _ ← assert_ rt (s_leb t0 t1) "t0 <= t1";
  result ← impl_velocityBound p result
             (paramAtTime p (std_max t0 (fst (timeRange p))))
             (paramAtTime p (std_min t1 (snd (timeRange p))));
  match timeParam_ p with
  | Some tp => mret (vscale result (tp_derivativeBound tp t0 t1))
  | None => mret result
  end.

(** The protected setters. *)
Definition set_constraints (p : Path) (constraint : option ConstraintSet) : Path :=
  {| paramRange_ := paramRange_ p; timeRange_ := timeRange_ p;
     outputSize_ := outputSize_ p; outputDerivativeSize_ := outputDerivativeSize_ p;
     constraints_ := constraint; timeParam_ := timeParam_ p;
     impl_compute := impl_compute p; impl_derivative := impl_derivative p;
     impl_velocityBound := impl_velocityBound p |}.

Definition set_timeRange (p : Path) (timeRange : interval_t) : Path :=
  {| paramRange_ :=
       match timeParam_ p with
       | Some tp => (tp_value tp (fst timeRange), tp_value tp (snd timeRange))
       | None => timeRange
       end;
     timeRange_ := timeRange;
     outputSize_ := outputSize_ p; outputDerivativeSize_ := outputDerivativeSize_ p;
     constraints_ := constraints_ p; timeParam_ := timeParam_ p;
     impl_compute := impl_compute p; impl_derivative := impl_derivative p;
     impl_velocityBound := impl_velocityBound p |}.

(** [void timeParameterization (tp, tr)]: [timeParam_ = tp; timeRange (tr);]. *)
Definition set_timeParameterization (p : Path) (tp : option TimeParameterization)
  (tr : interval_t) : Path :=
  let p' :=
    {| paramRange_ := paramRange_ p; timeRange_ := timeRange_ p;
       outputSize_ := outputSize_ p; outputDerivativeSize_ := outputDerivativeSize_ p;
       constraints_ := constraints_ p; timeParam_ := tp;
       impl_compute := impl_compute p; impl_derivative := impl_derivative p;
       impl_velocityBound := impl_velocityBound p |} in
  set_timeRange p' tr.

End WithScalar.
Arguments value_type V : clear implicits.
Arguments vector_t V : clear implicits.
Arguments Configuration_t V : clear implicits.
Arguments interval_t V : clear implicits.
Arguments TimeParameterization V : clear implicits.
Arguments ConstraintSet V : clear implicits.
Arguments Path V : clear implicits.
End PathModel.

(** ** Path: constructors and the operations defined in path.cc *)

Module PathOps.
Import PathModel.
Section WithScalar.
Context {V : Type} `{Scalar V}.

(** Modelled from the spec: the constructor
    [Path (interval, outputSize, outputDerivativeSize, constraints)] is
    declared in path.hh and defined in path.cc.  A new path has no time
    parameterization, so its parameter range is its time range; the three
    function arguments stand for the concrete shape's virtual methods. *)
Definition construct (interval : interval_t V) (outputSize outputDerivativeSize : size_type)
  (constraints : option (ConstraintSet V))
  (compute : Configuration_t V -> V -> bool * Configuration_t V)
  (deriv : vector_t V -> V -> size_type -> outcome (vector_t V))
  (vbound : vector_t V -> V -> V -> outcome (vector_t V)) : Path V :=
  {| paramRange_ := interval; timeRange_ := interval;
     outputSize_ := outputSize; outputDerivativeSize_ := outputDerivativeSize;
     constraints_ := constraints; timeParam_ := None;
     impl_compute := compute; impl_derivative := deriv;
     impl_velocityBound := vbound |}.

(** The mutators path.hh gives to a path and its derived classes. *)
Inductive mutation : Type :=
| SetTimeRange (tr : interval_t V)
| SetTimeParameterization (tp : option (TimeParameterization V)) (tr : interval_t V)
| SetConstraints (c : option (ConstraintSet V)).

Definition mutate (p : Path V) (m : mutation) : Path V :=
  match m with
  | SetTimeRange tr => set_timeRange p tr
  | SetTimeParameterization tp tr => set_timeParameterization p tp tr
  | SetConstraints c => set_constraints p c
  end.

Definition mutate_all (p : Path V) (ms : list mutation) : Path V :=
  fold_left mutate ms p.

(** The rule path.hh documents for [paramRange ()]. *)
Definition paramRange_rule (p : Path V) : interval_t V :=
  match timeParam_ p with
  | Some tp => (tp_value tp (fst (timeRange_ p)), tp_value tp (snd (timeRange_ p)))
  | None => timeRange_ p
  end.

(** Modelled from the spec: [copy (constraints)] is pure virtual in
    path.hh and implemented by the concrete shapes.  The receiver must not
    already own constraints (a fault otherwise); the copy has the same
    geometry and carries the given constraint set. *)
Definition copy_with_constraints (p : Path V) (constraints : ConstraintSet V)
  : outcome (Path V) :=
  match constraints_ p with
  | Some _ => AssertFailed "!path.constraints_"
  | None => Ok (set_constraints p (Some constraints))
  end.

(** Modelled from the spec: the end configurations of a new path are
    recomputed under its constraints; a failed projection raises
    [projection_error]. *)
Definition check_ends (rt : Runtime V) (p : Path V) : outcome (Path V) :=
  let '(_, ok_first) := call_success rt p (fst (timeRange_ p)) in
  let '(_, ok_second) := call_success rt p (snd (timeRange_ p)) in
  if ok_first && ok_second then Ok p
  else Thrown (projection_error "Failed to apply constraints").

(** Modelled from the spec: [reverse ()] is declared in path.hh and
    defined in path.cc.  The result has the same domain with time running
    backward: at time [t] it is the receiver at [first + second - t]. *)
Definition mirror (p : Path V) (t : V) : V :=
  s_sub (s_add (fst (timeRange_ p)) (snd (timeRange_ p))) t.

Definition reverse (rt : Runtime V) (p : Path V) : outcome (Path V) :=
  check_ends rt
    {| paramRange_ := timeRange_ p; timeRange_ := timeRange_ p;
       outputSize_ := outputSize_ p; outputDerivativeSize_ := outputDerivativeSize_ p;
       constraints_ := constraints_ p; timeParam_ := None;
       impl_compute := fun result t => at_ p (mirror p t) result;
       impl_derivative := fun result t order =>
         r ← derivative rt p result (mirror p t) order;
         mret (if Z.odd order then map s_opp r else r);
       impl_velocityBound := fun result t0 t1 =>
         velocityBound rt p result (mirror p t1) (mirror p t0) |}.

(** Modelled from the spec: [extract (subInterval)] is declared in
    path.hh and defined in path.cc.  It gives the sub-path over
    [subInterval]; when the upper bound is smaller than the lower bound
    the result is the forward extraction, reversed. *)
Definition extract_forward (rt : Runtime V) (p : Path V) (subInterval : interval_t V)
  : outcome (Path V) :=
  check_ends rt (set_timeRange p subInterval).

Definition extract (rt : Runtime V) (p : Path V) (subInterval : interval_t V)
  : outcome (Path V) :=
  if s_ltb (snd subInterval) (fst subInterval)
  then q ← extract_forward rt p (snd subInterval, fst subInterval); reverse rt q
  else extract_forward rt p subInterval.

End WithScalar.
Arguments mutation V : clear implicits.
End PathOps.

(** ** ProblemSolver (problem-solver.hh): the numerical-constraint registry *)

Module ProblemSolverModel.
Section WithFunctions.
(** [DifferentiableFunction] objects and [ComparisonType::VectorOfTypes]
    are declared in headers outside this model. *)
Variable DifferentiableFunction : Type.
Variable VectorOfTypes : Type.

(** A [shared_ptr] may be null. *)
Definition DifferentiableFunctionPtr_t : Type := option DifferentiableFunction.

(** The comparison objects the class creates. *)
Inductive ComparisonType : Type :=
| Equality_create
| ComparisonType_createDefault
| ComparisonTypes_create (types : VectorOfTypes).

Definition ComparisonTypePtr_t : Type := option ComparisonType.

(** The two maps of the class that make the registry. *)
Record ProblemSolver : Type := {
  NumericalConstraintMap_ : gmap string DifferentiableFunctionPtr_t;
  comparisonTypeMap_ : gmap string ComparisonTypePtr_t
}.

(** Modelled from the spec: the constructor [ProblemSolver ()] is declared
    in problem-solver.hh and defined in problem-solver.cc.  The registry
    holds what was added to it, so it starts with both maps empty. *)
Definition ProblemSolver_new : ProblemSolver :=
  {| NumericalConstraintMap_ := ∅; comparisonTypeMap_ := ∅ |}.

(** [std::map::operator[]] on a map of pointers: a missing key is first
    bound to a null pointer. *)
Definition map_index {A} (m : gmap string (option A)) (key : string)
  : gmap string (option A) * option A :=
  match m !! key with
  | Some v => (m, v)
  | None => (<[key := None]> m, None)
  end.

Definition addNumericalConstraint (ps : ProblemSolver) (name : string)
  (constraint : DifferentiableFunctionPtr_t) : ProblemSolver :=
  {| NumericalConstraintMap_ := <[name := constraint]> (NumericalConstraintMap_ ps);
     comparisonTypeMap_ :=
       <[name := Some ComparisonType_createDefault]> (comparisonTypeMap_ ps) |}.

(** [void comparisonType (name, types)]. *)
Definition comparisonType_types (ps : ProblemSolver) (name : string) (types : VectorOfTypes)
  : ProblemSolver * outcome unit :=
  let '(m, df) := map_index (NumericalConstraintMap_ ps) name in
  match df with
  | None =>
      ({| NumericalConstraintMap_ := m; comparisonTypeMap_ := comparisonTypeMap_ ps |},
       Thrown (std_logic_error ("Numerical constraint " ++ name ++ " not defined.")))
  | Some _ =>
      ({| NumericalConstraintMap_ := m;
          comparisonTypeMap_ :=
            <[name := Some (ComparisonTypes_create types)]> (comparisonTypeMap_ ps) |},
       Ok tt)
  end.

(** [void comparisonType (name, eq)]. *)
Definition comparisonType_set (ps : ProblemSolver) (name : string) (eq : ComparisonTypePtr_t)
  : ProblemSolver * outcome unit :=
  ({| NumericalConstraintMap_ := NumericalConstraintMap_ ps;
      comparisonTypeMap_ := <[name := eq]> (comparisonTypeMap_ ps) |},
   Ok tt).

(** [ComparisonTypePtr_t comparisonType (name) const]. *)
Definition comparisonType_get (ps : ProblemSolver) (name : string)
  : ProblemSolver * outcome ComparisonTypePtr_t :=
  match comparisonTypeMap_ ps !! name with
  | None => (ps, Ok (Some Equality_create))
  | Some v => (ps, Ok v)
  end.

(** [DifferentiableFunctionPtr_t numericalConstraint (name)]. *)
Definition numericalConstraint (ps : ProblemSolver) (name : string)
  : ProblemSolver * outcome DifferentiableFunctionPtr_t :=
  let '(m, df) := map_index (NumericalConstraintMap_ ps) name in
  ({| NumericalConstraintMap_ := m; comparisonTypeMap_ := comparisonTypeMap_ ps |}, Ok df).

(** The calls of the header that write or read the two maps, and the
    state they leave behind.  A thrown exception reaches the caller; the
    solver keeps the state it had at the throw.  The deprecated
    [addConstraintToConfigProjector] goes through
    [addFunctionToConfigProjector], which the header only declares, and
    never writes [NumericalConstraintMap_]; it is left out. *)
Inductive call : Type :=
| AddNumericalConstraint (name : string) (constraint : DifferentiableFunctionPtr_t)
| ComparisonTypes (name : string) (types : VectorOfTypes)
| ComparisonTypeSet (name : string) (eq : ComparisonTypePtr_t)
| ComparisonTypeGet (name : string)
| NumericalConstraint (name : string).

Definition step (ps : ProblemSolver) (c : call) : ProblemSolver :=
  match c with
  | AddNumericalConstraint name constraint => addNumericalConstraint ps name constraint
  | ComparisonTypes name types => fst (comparisonType_types ps name types)
  | ComparisonTypeSet name eq => fst (comparisonType_set ps name eq)
  | ComparisonTypeGet name => fst (comparisonType_get ps name)
  | NumericalConstraint name => fst (numericalConstraint ps name)
  end.

Definition run (cs : list call) : ProblemSolver := fold_left step cs ProblemSolver_new.

(** [name] was never passed to [addNumericalConstraint]. *)
Definition adds (name : string) (c : call) : bool :=
  match c with
  | AddNumericalConstraint n _ => bool_decide (n = name)
  | _ => false
  end.

Definition never_added (name : string) (cs : list call) : Prop :=
  forallb (fun c => negb (adds name c)) cs = true.

Definition raises {A} (o : outcome A) : bool :=
  match o with
  | Thrown _ => true
  | _ => false
  end.

End WithFunctions.
Arguments Equality_create {VectorOfTypes}.
Arguments ComparisonType_createDefault {VectorOfTypes}.
Arguments ComparisonTypes_create {VectorOfTypes} types.
Arguments ProblemSolver_new {DifferentiableFunction VectorOfTypes}.
Arguments NumericalConstraintMap_ {DifferentiableFunction VectorOfTypes} p.
Arguments comparisonTypeMap_ {DifferentiableFunction VectorOfTypes} p.
Arguments addNumericalConstraint {DifferentiableFunction VectorOfTypes} ps name constraint.
Arguments comparisonType_types {DifferentiableFunction VectorOfTypes} ps name types.
Arguments comparisonType_set {DifferentiableFunction VectorOfTypes} ps name eq.
Arguments comparisonType_get {DifferentiableFunction VectorOfTypes} ps name.
Arguments numericalConstraint {DifferentiableFunction VectorOfTypes} ps name.
Arguments step {DifferentiableFunction VectorOfTypes} ps c.
Arguments run {DifferentiableFunction VectorOfTypes} cs.
Arguments adds {DifferentiableFunction VectorOfTypes} name c.
Arguments never_added {DifferentiableFunction VectorOfTypes} name cs.
Arguments AddNumericalConstraint {DifferentiableFunction VectorOfTypes} name constraint.
Arguments ComparisonTypes {DifferentiableFunction VectorOfTypes} name types.
Arguments ComparisonTypeSet {DifferentiableFunction VectorOfTypes} name eq.
Arguments ComparisonTypeGet {DifferentiableFunction VectorOfTypes} name.
Arguments NumericalConstraint {DifferentiableFunction VectorOfTypes} name.
End ProblemSolverModel.

(** ** TimesFrameFunction (times-frame-function.hh) *)

Module TimesFrame.
Section WithScalar.
Context {V : Type} `{Scalar V}.
Local Open Scope scalar_scope.

(** Fixed-size Eigen objects.  A quaternion stores its coefficients in
    the order x, y, z, w. *)
Record vector3 : Type := { v_x : V; v_y : V; v_z : V }.
Record Quaternion_t : Type := { q_x : V; q_y : V; q_z : V; q_w : V }.
Record matrix3 : Type := { row0 : vector3; row1 : vector3; row2 : vector3 }.
Record vector6_t : Type := { head3' : vector3; tail3' : vector3 }.

(** The input of the function has size 7: [head<3> ()] is a position and
    [tail<4> ()] the coefficients of a quaternion. *)
Record vector7 : Type := { head3 : vector3; tail4 : Quaternion_t }.

(** A 6x6 matrix seen through its four 3x3 corners. *)
Record matrix6 : Type := {
  topLeftCorner : matrix3; topRightCorner : matrix3;
  bottomLeftCorner : matrix3; bottomRightCorner : matrix3
}.

(** [Transform3f] is pinocchio's [SE3]: a rotation matrix and a translation. *)
Record Transform3f : Type := { rotation : matrix3; translation : vector3 }.

Definition vec3 (x y z : V) : vector3 := {| v_x := x; v_y := y; v_z := z |}.
Definition zero3 : vector3 := vec3 0 0 0.
Definition add3 (a b : vector3) : vector3 :=
  vec3 (v_x a + v_x b) (v_y a + v_y b) (v_z a + v_z b).
Definition neg3 (a : vector3) : vector3 := vec3 (- v_x a) (- v_y a) (- v_z a).
Definition scale3 (s : V) (a : vector3) : vector3 := vec3 (s * v_x a) (s * v_y a) (s * v_z a).
Definition dot3 (a b : vector3) : V := v_x a * v_x b + v_y a * v_y b + v_z a * v_z b.
Definition cross (a b : vector3) : vector3 :=
  vec3 (v_y a * v_z b - v_z a * v_y b)
       (v_z a * v_x b - v_x a * v_z b)
       (v_x a * v_y b - v_y a * v_x b).

Definition col0 (m : matrix3) : vector3 := vec3 (v_x (row0 m)) (v_x (row1 m)) (v_x (row2 m)).
Definition col1 (m : matrix3) : vector3 := vec3 (v_y (row0 m)) (v_y (row1 m)) (v_y (row2 m)).
Definition col2 (m : matrix3) : vector3 := vec3 (v_z (row0 m)) (v_z (row1 m)) (v_z (row2 m)).
Definition mat3 (r0 r1 r2 : vector3) : matrix3 := {| row0 := r0; row1 := r1; row2 := r2 |}.
Definition transpose (m : matrix3) : matrix3 := mat3 (col0 m) (col1 m) (col2 m).
Definition mneg (m : matrix3) : matrix3 := mat3 (neg3 (row0 m)) (neg3 (row1 m)) (neg3 (row2 m)).
Definition mvec (m : matrix3) (v : vector3) : vector3 :=
  vec3 (dot3 (row0 m) v) (dot3 (row1 m) v) (dot3 (row2 m) v).
Definition vmat (r : vector3) (m : matrix3) : vector3 :=
  vec3 (dot3 r (col0 m)) (dot3 r (col1 m)) (dot3 r (col2 m)).
Definition mmul (a b : matrix3) : matrix3 :=
  mat3 (vmat (row0 a) b) (vmat (row1 a) b) (vmat (row2 a) b).
Definition setZero : matrix3 := mat3 zero3 zero3 zero3.
Definition Identity3 : matrix3 := mat3 (vec3 1 0 0) (vec3 0 1 0) (vec3 0 0 1).

(** [se3::skew (v)]. *)
Definition skew (v : vector3) : matrix3 :=
  mat3 (vec3 0 (- v_z v) (v_y v))
       (vec3 (v_z v) 0 (- v_x v))
       (vec3 (- v_y v) (v_x v) 0).

(** Eigen's quaternion product, [a * b]. *)
Definition qmul (a b : Quaternion_t) : Quaternion_t :=
  {| q_x := q_w a * q_x b + q_x a * q_w b + q_y a * q_z b - q_z a * q_y b;
     q_y := q_w a * q_y b + q_y a * q_w b + q_z a * q_x b - q_x a * q_z b;
     q_z := q_w a * q_z b + q_z a * q_w b + q_x a * q_y b - q_y a * q_x b;
     q_w := q_w a * q_w b - q_x a * q_x b - q_y a * q_y b - q_z a * q_z b |}.

Definition qvec (q : Quaternion_t) : vector3 := vec3 (q_x q) (q_y q) (q_z q).

(** Eigen's [QuaternionBase::_transformVector]:
    [uv = vec ().cross (v); uv += uv; return v + w () * uv + vec ().cross (uv);]. *)
Definition _transformVector (q : Quaternion_t) (v : vector3) : vector3 :=
  let uv := cross (qvec q) v in
  let uv := add3 uv uv in
  add3 (add3 v (scale3 (q_w q) uv)) (cross (qvec q) uv).

(** Eigen's [QuaternionBase::toRotationMatrix]. *)
Definition toRotationMatrix (q : Quaternion_t) : matrix3 :=
  let tx := 2 * q_x q in
  let ty := 2 * q_y q in
  let tz := 2 * q_z q in
  let twx := tx * q_w q in
  let twy := ty * q_w q in
  let twz := tz * q_w q in
  let txx := tx * q_x q in
  let txy := ty * q_x q in
  let txz := tz * q_x q in
  let tyy := ty * q_y q in
  let tyz := tz * q_y q in
  let tzz := tz * q_z q in
  mat3 (vec3 (1 - (tyy + tzz)) (txy - twz) (txz + twy))
       (vec3 (txy + twz) (1 - (txx + tzz)) (tyz - twx))
       (vec3 (txz - twy) (tyz + twx) (1 - (txx + tyy))).

Definition squaredNorm_q (q : Quaternion_t) : V :=
  q_x q * q_x q + q_y q * q_y q + q_z q * q_z q + q_w q * q_w q.
Definition unit_quaternion (q : Quaternion_t) : Prop := squaredNorm_q q = 1.

(** pinocchio's [SE3]: product, inverse, identity, and the element a
    configuration of size 7 stands for. *)
Definition SE3_mul (a b : Transform3f) : Transform3f :=
  {| rotation := mmul (rotation a) (rotation b);
     translation := add3 (translation a) (mvec (rotation a) (translation b)) |}.
Definition SE3_inverse (a : Transform3f) : Transform3f :=
  {| rotation := transpose (rotation a);
     translation := neg3 (mvec (transpose (rotation a)) (translation a)) |}.
Definition SE3_Identity : Transform3f := {| rotation := Identity3; translation := zero3 |}.
Definition SE3_of (x : vector7) : Transform3f :=
  {| rotation := toRotationMatrix (tail4 x); translation := head3 x |}.

Definition zero6 : vector6_t := {| head3' := zero3; tail3' := zero3 |}.
Definition squaredNorm (v : vector6_t) : V :=
  dot3 (head3' v) (head3' v) + dot3 (tail3' v) (tail3' v).

(** What the sources take from pinocchio and Eigen without this model
    defining it: the exponential and logarithm of SE(3), the conversion
    of a rotation matrix to a quaternion, and the literal [1e-12]. *)
Variable exp6 : vector6_t -> Transform3f.
Variable log6 : Transform3f -> vector6_t.
Variable Quaternion_of_matrix : matrix3 -> Quaternion_t.
Variable tolerance : V.

(** The Lie-group operations of hpp-pinocchio on SE(3):
    [x + v] is [SE3 (x) * exp6 (v)], and [y - y1] is
    [log6 (SE3 (y1)^-1 * SE3 (y))]. *)
Definition liegroup_plus (x : vector7) (v : vector6_t) : vector7 :=
  let M1 := SE3_mul (SE3_of x) (exp6 v) in
  {| head3 := translation M1; tail4 := Quaternion_of_matrix (rotation M1) |}.
Definition liegroup_minus (y y1 : vector7) : vector6_t :=
  log6 (SE3_mul (SE3_inverse (SE3_of y1)) (SE3_of y)).

Record TimesFrameFunction : Type := {
  oMi_ : Transform3f;
  logM_ : vector6_t;
  oQi_ : Quaternion_t
}.

(** The constructor, [TimesFrameFunction (M, name)]; the name and the
    sizes passed to [DifferentiableFunction] play no part below. *)
Definition TimesFrameFunction_new (M : Transform3f) : TimesFrameFunction :=
  {| oMi_ := M; logM_ := log6 M; oQi_ := Quaternion_of_matrix (rotation M) |}.

(** The value written to [y], before the assertion. *)
Definition compute_y (f : TimesFrameFunction) (x : vector7) : vector7 :=
  let iQ := tail4 x in
  {| head3 := add3 (_transformVector iQ (translation (oMi_ f))) (head3 x);
     tail4 := qmul iQ (oQi_ f) |}.

Definition impl_compute (rt : Runtime V) (f : TimesFrameFunction) (x : vector7)
  : outcome vector7 :=
  let y := compute_y f x in
  let y1 := liegroup_plus x (logM_ f) in
  _ ← assert_ rt (squaredNorm (liegroup_minus y y1) <? tolerance)
        "(y - y1).squaredNorm () < 1e-12";
  mret y.

Definition impl_jacobian (f : TimesFrameFunction) (J : matrix6) (_ : vector7) : matrix6 :=
  let J := {| topLeftCorner := transpose (rotation (oMi_ f));
              topRightCorner := topRightCorner J;
              bottomLeftCorner := bottomLeftCorner J;
              bottomRightCorner := bottomRightCorner J |} in
  let J := {| topLeftCorner := topLeftCorner J;
              topRightCorner :=
                mmul (mneg (transpose (rotation (oMi_ f)))) (skew (translation (oMi_ f)));
              bottomLeftCorner := bottomLeftCorner J;
              bottomRightCorner := bottomRightCorner J |} in
  let J := {| topLeftCorner := topLeftCorner J;
              topRightCorner := topRightCorner J;
              bottomLeftCorner := setZero;
              bottomRightCorner := bottomRightCorner J |} in
  {| topLeftCorner := topLeftCorner J;
     topRightCorner := topRightCorner J;
     bottomLeftCorner := bottomLeftCorner J;
     bottomRightCorner := transpose (rotation (oMi_ f)) |}.

End WithScalar.
Arguments vector3 V : clear implicits.
Arguments Quaternion_t V : clear implicits.
Arguments matrix3 V : clear implicits.
Arguments vector6_t V : clear implicits.
Arguments vector7 V : clear implicits.
Arguments matrix6 V : clear implicits.
Arguments Transform3f V : clear implicits.
Arguments TimesFrameFunction V : clear implicits.
End TimesFrame.

(** * Vocabulary of the properties *)

Section PathVocabulary.
Import PathModel.
Context {V : Type} `{Scalar V}.
Local Open Scope scalar_scope.

(** The raw geometric value at the internal parameter of [t], computed
    into a fresh vector. *)
Definition raw_config (rt : Runtime V) (p : Path V) (t : V) : bool * Configuration_t V :=
  impl_compute p (fresh_vector rt (outputSize p)) (paramAtTime p t).

(** A projector is attached and does not converge on the raw value. *)
Definition projector_diverged (rt : Runtime V) (p : Path V) (t : V) : Prop :=
  exists c, constraints_ p = Some c /\ fst (cs_apply c (snd (raw_config rt p t))) = false.

(** The reading of the success flag under which it is false exactly when
    the projector could not converge. *)
Definition flag_tracks_projector (rt : Runtime V) (p : Path V) (t : V) : Prop :=
  snd (call_success rt p t) = false <-> projector_diverged rt p t.

(** The twin of a path that never reports a failure: same configurations,
    every success indication forced to [true]. *)
Definition silent_constraints (c : ConstraintSet V) : ConstraintSet V :=
  {| cs_apply := fun q => (true, snd (cs_apply c q)) |}.

Definition silent (p : Path V) : Path V :=
  {| paramRange_ := paramRange_ p; timeRange_ := timeRange_ p;
     outputSize_ := outputSize_ p; outputDerivativeSize_ := outputDerivativeSize_ p;
     constraints_ := option_map silent_constraints (constraints_ p);
     timeParam_ := timeParam_ p;
     impl_compute := fun result s => (true, snd (impl_compute p result s));
     impl_derivative := impl_derivative p;
     impl_velocityBound := impl_velocityBound p |}.

(** [b] bounds the magnitude of [d], component by component. *)
Definition bounded_by (b d : vector_t V) : Prop :=
  Forall2 (fun bi di => (s_abs di <=? bi) = true) b d.

(** What a concrete shape owes: its velocity bound over a parameter
    interval dominates its first derivative inside that interval. *)
Definition shape_bound_sound (p : Path V) : Prop :=
  forall result result' s0 s1 s b d,
    (s0 <=? s) = true -> (s <=? s1) = true ->
    impl_velocityBound p result s0 s1 = Ok b ->
    impl_derivative p result' s 1%Z = Ok d ->
    bounded_by b d.

(** What a time parameterization owes: it does not decrease, and
    [derivativeBound] dominates its derivative over the interval. *)
Definition nondecreasing (tp : TimeParameterization V) : Prop :=
  forall a b, (a <=? b) = true -> (tp_value tp a <=? tp_value tp b) = true.

Definition derivativeBound_sound (tp : TimeParameterization V) : Prop :=
  forall t0 t1 t, (t0 <=? t) = true -> (t <=? t1) = true ->
    (s_abs (tp_derivative tp t) <=? tp_derivativeBound tp t0 t1) = true.

Definition timeParam_sound (p : Path V) : Prop :=
  match timeParam_ p with
  | Some tp => nondecreasing tp /\ derivativeBound_sound tp
  | None => True
  end.

(** The parameter interval [velocityBound] hands to the shape. *)
Definition clamped (p : Path V) (t0 t1 : V) : V * V :=
  (paramAtTime p (std_max t0 (fst (timeRange p))),
   paramAtTime p (std_min t1 (snd (timeRange p)))).

(** What remains of [velocityBound] once its assertions are passed. *)
Definition scaled_bound (p : Path V) (result : vector_t V) (t0 t1 : V)
  : outcome (vector_t V) :=
  r ← impl_velocityBound p result (fst (clamped p t0 t1)) (snd (clamped p t0 t1));
  mret (match timeParam_ p with
        | Some tp => vscale r (tp_derivativeBound tp t0 t1)
        | None => r
        end).

(** The interval [[t0, t1]] clamped to the time range of the path. *)
Definition clamp_to_timeRange (p : Path V) (t0 t1 : V) : V * V :=
  (if fst (timeRange p) <=? t0 then t0 else fst (timeRange p),
   if t1 <=? snd (timeRange p) then t1 else snd (timeRange p)).

(** The reading under which the bound dominates the derivative at every
    time of [[t0, t1]], whatever the path and its parameterization. *)
Definition bound_holds_on_interval (rt : Runtime V) (p : Path V) (result : vector_t V)
  (t0 t1 : V) : Prop :=
  forall b t result' d,
    velocityBound rt p result t0 t1 = Ok b ->
    (t0 <=? t) = true -> (t <=? t1) = true ->
    derivative rt p result' t 1%Z = Ok d ->
    bounded_by b d.

(** The reading under which an order other than 1, asked of a path with
    a time parameterization, ends in a fault in every build. *)
Definition higher_order_faults (rt : Runtime V) (p : Path V) (result : vector_t V)
  (t : V) (order : size_type) : Prop :=
  timeParam_ p <> None -> order <> 1%Z ->
  exists expr, derivative rt p result t order = AssertFailed expr.

End PathVocabulary.

Section RegistryVocabulary.
Import ProblemSolverModel.
Context {DifferentiableFunction VectorOfTypes : Type}.

(** The function the registry binds [name] to, if any: a missing key and
    a key bound to a null pointer both give [None]. *)
Definition registered (ps : ProblemSolver DifferentiableFunction VectorOfTypes)
  (name : string) : option DifferentiableFunction :=
  match NumericalConstraintMap_ ps !! name with
  | Some df => df
  | None => None
  end.

(** The reading under which each of the three operations raises on a
    name that was never added. *)
Definition unknown_name_always_raises
  (cs : list (call DifferentiableFunction VectorOfTypes)) (name : string)
  (types : VectorOfTypes) : Prop :=
  never_added name cs ->
  raises (snd (comparisonType_types (run cs) name types)) = true /\
  raises (snd (numericalConstraint (run cs) name)) = true /\
  raises (snd (comparisonType_get (run cs) name)) = true.

End RegistryVocabulary.

Section TimesFrameVocabulary.
Import TimesFrame.
Context {V : Type} `{Scalar V}.
Local Open Scope scalar_scope.

(** The matrix of [v |-> q v q^-1] written without assuming [q] of norm 1. *)
Definition conjugation (q : Quaternion_t V) : matrix3 V :=
  let x := q_x q in
  let y := q_y q in
  let z := q_z q in
  let w := q_w q in
  mat3 (vec3 (w * w + x * x - y * y - z * z) (2 * (x * y - w * z)) (2 * (x * z + w * y)))
       (vec3 (2 * (x * y + w * z)) (w * w - x * x + y * y - z * z) (2 * (y * z - w * x)))
       (vec3 (2 * (x * z - w * y)) (2 * (y * z + w * x)) (w * w - x * x - y * y + z * z)).

Variable exp6 : vector6_t V -> Transform3f V.
Variable log6 : Transform3f V -> vector6_t V.
Variable Quaternion_of_matrix : matrix3 V -> Quaternion_t V.
Variable tolerance : V.

(** A rigid transform: its rotation part is the matrix of a quaternion
    of norm 1. *)
Definition rigid (M : Transform3f V) : Prop :=
  exists q, unit_quaternion q /\ rotation M = toRotationMatrix q.

(** What pinocchio and Eigen guarantee about the operations the model
    takes from them. *)
Definition library_contract : Prop :=
  (forall q, unit_quaternion q ->
     unit_quaternion (Quaternion_of_matrix (toRotationMatrix q)) /\
     toRotationMatrix (Quaternion_of_matrix (toRotationMatrix q)) = toRotationMatrix q) /\
  (forall M, rigid M -> exp6 (log6 M) = M) /\
  log6 SE3_Identity = zero6 /\
  (0 <? tolerance) = true.

End TimesFrameVocabulary.

(** ** Concrete scalars, shapes and solvers used to exercise the model *)

Module Examples.
Import PathModel PathOps.
Local Open Scope Z_scope.

(** A build with assertions and one without; fresh vectors hold zeros. *)
Definition rt_debug : Runtime Z :=
  {| NDEBUG := false; fresh_vector := fun n => repeat 0 (Z.to_nat n) |}.
Definition rt_release : Runtime Z :=
  {| NDEBUG := true; fresh_vector := fun n => repeat 0 (Z.to_nat n) |}.

(** The parabola [s |-> (s, s^2)]: derivatives of every order and a
    velocity bound that depends on the interval. *)
Definition parabola_compute (_ : Configuration_t Z) (s : Z) : bool * Configuration_t Z :=
  (true, [s; s * s]).
Definition parabola_derivative (_ : vector_t Z) (s : Z) (order : size_type)
  : outcome (vector_t Z) :=
  if order =? 1 then Ok [1; 2 * s]
  else if order =? 2 then Ok [0; 2]
  else Ok [0; 0].
Definition parabola_velocityBound (_ : vector_t Z) (s0 s1 : Z) : outcome (vector_t Z) :=
  Ok [1; 2 * Z.max (Z.abs s0) (Z.abs s1)].

Definition parabola (interval : interval_t Z) (constraints : option (ConstraintSet Z)) : Path Z :=
  construct interval 2 2 constraints parabola_compute parabola_derivative parabola_velocityBound.

(** A shape whose evaluation fails on negative parameters. *)
Definition partial_compute (_ : Configuration_t Z) (s : Z) : bool * Configuration_t Z :=
  if s <? 0 then (false, [s; 0]) else (true, [s; s * s]).
Definition partial_shape (interval : interval_t Z) (constraints : option (ConstraintSet Z)) : Path Z :=
  construct interval 2 2 constraints partial_compute
    default_impl_derivative default_impl_velocityBound.

(** The affine time parameterization [t |-> 2 t + 1]. *)
Definition affine : TimeParameterization Z :=
  {| tp_value := fun t => 2 * t + 1;
     tp_derivative := fun _ => 2;
     tp_derivativeBound := fun _ _ => 2 |}.

(** A projector onto the diagonal [q1 = q0] that gives up on
    configurations with a negative first coordinate, and one that always
    converges. *)
Definition diagonal : ConstraintSet Z :=
  {| cs_apply := fun q =>
       match q with
       | q0 :: _ => if q0 <? 0 then (false, q) else (true, [q0; q0])
       | [] => (false, q)
       end |}.
Definition origin : ConstraintSet Z :=
  {| cs_apply := fun _ => (true, [0; 0]) |}.

(** The parabola over [[0, 3]], run twice as fast and shifted. *)
Definition timed_parabola : Path Z :=
  set_timeParameterization (parabola (0, 3) None) (Some affine) (0, 3).

(** A registry session: one constraint is added, another name is only
    ever looked up. *)
Definition session : list (ProblemSolverModel.call nat (list nat)) :=
  [ ProblemSolverModel.AddNumericalConstraint "pose" (Some 7%nat);
    ProblemSolverModel.NumericalConstraint "gaze";
    ProblemSolverModel.ComparisonTypes "pose" [0%nat] ].

(** SE(3) over the integers: the quaternions of norm 1 are the eight
    units, their matrices are the four diagonal rotations, and the
    following operations satisfy on them what the model asks of
    pinocchio's. *)
Definition Z_Quaternion_of_matrix (m : TimesFrame.matrix3 Z) : TimesFrame.Quaternion_t Z :=
  let m00 := TimesFrame.v_x (TimesFrame.row0 m) in
  let m11 := TimesFrame.v_y (TimesFrame.row1 m) in
  if (m00 =? 1) && (m11 =? 1) then TimesFrame.Build_Quaternion_t 0 0 0 1
  else if (m00 =? 1) then TimesFrame.Build_Quaternion_t 1 0 0 0
  else if (m11 =? 1) then TimesFrame.Build_Quaternion_t 0 1 0 0
  else TimesFrame.Build_Quaternion_t 0 0 1 0.

Definition Z_log6 (M : TimesFrame.Transform3f Z) : TimesFrame.vector6_t Z :=
  let m := TimesFrame.rotation M in
  {| TimesFrame.head3' := TimesFrame.translation M;
     TimesFrame.tail3' :=
       TimesFrame.vec3 (TimesFrame.v_x (TimesFrame.row0 m) - 1)
                       (TimesFrame.v_y (TimesFrame.row1 m) - 1)
                       (TimesFrame.v_z (TimesFrame.row2 m) - 1) |}.

Definition Z_exp6 (v : TimesFrame.vector6_t Z) : TimesFrame.Transform3f Z :=
  let w := TimesFrame.tail3' v in
  {| TimesFrame.rotation :=
       TimesFrame.mat3 (TimesFrame.vec3 (TimesFrame.v_x w + 1) 0 0)
                       (TimesFrame.vec3 0 (TimesFrame.v_y w + 1) 0)
                       (TimesFrame.vec3 0 0 (TimesFrame.v_z w + 1));
     TimesFrame.translation := TimesFrame.head3' v |}.

(** Half a turn about the x axis followed by a translation, and a
    configuration turned half a turn about the z axis. *)
Definition half_turn_x : TimesFrame.Transform3f Z :=
  {| TimesFrame.rotation := TimesFrame.toRotationMatrix (TimesFrame.Build_Quaternion_t 1 0 0 0);
     TimesFrame.translation := TimesFrame.vec3 1 2 3 |}.
Definition pose_z : TimesFrame.vector7 Z :=
  {| TimesFrame.head3 := TimesFrame.vec3 4 5 6;
     TimesFrame.tail4 := TimesFrame.Build_Quaternion_t 0 0 1 0 |}.

(** The parabola again, with a velocity bound that is that of the
    parabola over an interval [s0 <= s1] and zero over an empty one. *)
Definition guarded_velocityBound (_ : vector_t Z) (s0 s1 : Z) : outcome (vector_t Z) :=
  if s0 <=? s1 then Ok [1; 2 * Z.max (Z.abs s0) (Z.abs s1)] else Ok [0; 0].

Definition guarded_parabola (interval : interval_t Z) : Path Z :=
  construct interval 2 2 None parabola_compute parabola_derivative guarded_velocityBound.

(** The decreasing time parameterization [t |-> - t]. *)
Definition backward : TimeParameterization Z :=
  {| tp_value := fun t => - t;
     tp_derivative := fun _ => -1;
     tp_derivativeBound := fun _ _ => 1 |}.

Definition backward_parabola : Path Z :=
  set_timeParameterization (guarded_parabola (0, 3)) (Some backward) (0, 3).

End Examples.

(** * Properties *)

(** ** Ordered-ring facts about scalars *)

Lemma Z_ScalarLaws : ScalarLaws Z.
Proof.
  split; simpl; intros.
  - exact InitialRing.Zth.
  - apply Z.leb_refl.
  - apply Z.leb_le. apply Z.leb_le in H, H0. lia.
  - apply Z.leb_le in H, H0. lia.
  - destruct (Z.leb_spec a b); [left | right; apply Z.leb_le]; auto; lia.
  - rewrite Z.ltb_antisym. reflexivity.
  - apply Z.leb_le. apply Z.leb_le in H. lia.
  - apply Z.leb_le. apply Z.leb_le in H, H0. lia.
Qed.
#[export] Existing Instance Z_ScalarLaws.

Section ScalarFacts.
Context {V : Type} `{ScalarLaws V}.
Local Open Scope scalar_scope.
Add Ring scalar_ring : s_ring.

Lemma s_ltb_true_leb (a b : V) : (a <? b) = true -> (a <=? b) = true.
Proof.
  rewrite s_ltb_leb. intros Hlt.
  destruct (s_leb_total a b) as [Hab | Hba]; [exact Hab |].
  rewrite Hba in Hlt. discriminate.
Qed.

Lemma s_ltb_false_leb (a b : V) : (a <? b) = false -> (b <=? a) = true.
Proof. rewrite s_ltb_leb. destruct (b <=? a); [reflexivity | discriminate]. Qed.

Lemma s_ltb_asym (a b : V) : (a <? b) = true -> (b <? a) = false.
Proof.
  intros Hlt. rewrite s_ltb_leb. rewrite (s_ltb_true_leb _ _ Hlt). reflexivity.
Qed.

Lemma s_ltb_leb_trans (a b c : V) : (a <? b) = true -> (b <=? c) = true -> (a <? c) = true.
Proof.
  intros Hab Hbc. rewrite s_ltb_leb in *.
  destruct (c <=? a) eqn:Hca; [| reflexivity].
  rewrite (s_leb_trans _ _ _ Hbc Hca) in Hab. discriminate.
Qed.

Lemma s_leb_ltb_trans (a b c : V) : (a <=? b) = true -> (b <? c) = true -> (a <? c) = true.
Proof.
  intros Hab Hbc. rewrite s_ltb_leb in *.
  destruct (c <=? a) eqn:Hca; [| reflexivity].
  rewrite (s_leb_trans _ _ _ Hca Hab) in Hbc. discriminate.
Qed.

Lemma std_max_lub (a b c : V) :
  (a <=? c) = true -> (b <=? c) = true -> (std_max a b <=? c) = true.
Proof. intros Ha Hb. unfold std_max. destruct (a <? b); assumption. Qed.

Lemma std_min_glb (a b c : V) :
  (c <=? a) = true -> (c <=? b) = true -> (c <=? std_min a b) = true.
Proof. intros Ha Hb. unfold std_min. destruct (b <? a); assumption. Qed.

Lemma std_max_ge_l (a b : V) : (a <=? std_max a b) = true.
Proof.
  unfold std_max. destruct (a <? b) eqn:E.
  - apply s_ltb_true_leb, E.
  - apply s_leb_refl.
Qed.

Lemma std_min_le_l (a b : V) : (std_min a b <=? a) = true.
Proof.
  unfold std_min. destruct (b <? a) eqn:E.
  - apply s_ltb_true_leb, E.
  - apply s_leb_refl.
Qed.

Lemma s_opp_nonneg (a : V) : (a <=? 0) = true -> (0 <=? - a) = true.
Proof.
  intros Ha. pose proof (s_add_mono _ _ (- a) Ha) as Hm.
  replace (a + - a) with 0 in Hm by ring.
  replace (0 + - a) with (- a) in Hm by ring. exact Hm.
Qed.

Lemma s_sub_nonneg (a b : V) : (a <=? b) = true -> (0 <=? b - a) = true.
Proof.
  intros Hab. pose proof (s_add_mono _ _ (- a) Hab) as Hm.
  replace (a + - a) with 0 in Hm by ring.
  replace (b + - a) with (b - a) in Hm by ring. exact Hm.
Qed.

Lemma s_add_nonneg (a b : V) : (0 <=? a) = true -> (0 <=? b) = true -> (0 <=? a + b) = true.
Proof.
  intros Ha Hb. apply (s_leb_trans _ b); [exact Hb |].
  pose proof (s_add_mono _ _ b Ha) as Hm.
  replace (0 + b) with b in Hm by ring. exact Hm.
Qed.

Lemma s_leb_of_sub_nonneg (a b : V) : (0 <=? b - a) = true -> (a <=? b) = true.
Proof.
  intros Hs. pose proof (s_add_mono _ _ a Hs) as Hm.
  replace (0 + a) with a in Hm by ring.
  replace (b - a + a) with b in Hm by ring. exact Hm.
Qed.

Lemma s_mul_le_mono (a b c d : V) :
  (0 <=? a) = true -> (a <=? b) = true -> (0 <=? c) = true -> (c <=? d) = true ->
  (a * c <=? b * d) = true.
Proof.
  intros Ha Hab Hc Hcd. apply s_leb_of_sub_nonneg.
  replace (b * d - a * c) with ((b - a) * d + a * (d - c)) by ring.
  apply s_add_nonneg; apply s_mul_nonneg; auto using s_sub_nonneg.
  apply (s_leb_trans _ c); assumption.
Qed.

Lemma s_abs_nonneg (a : V) : (0 <=? s_abs a) = true.
Proof.
  unfold s_abs. destruct (a <? 0) eqn:E.
  - apply s_opp_nonneg, s_ltb_true_leb, E.
  - apply s_ltb_false_leb, E.
Qed.

Lemma s_abs_of_nonneg (a : V) : (0 <=? a) = true -> s_abs a = a.
Proof.
  intros Ha. unfold s_abs. rewrite s_ltb_leb, Ha. reflexivity.
Qed.

Lemma s_abs_of_nonpos (a : V) : (a <=? 0) = true -> s_abs a = - a.
Proof.
  intros Ha. unfold s_abs. destruct (a <? 0) eqn:E; [reflexivity |].
  apply s_ltb_false_leb in E.
  rewrite (s_leb_antisym _ _ Ha E). ring.
Qed.

Lemma s_nonpos_of_opp (a : V) : (0 <=? - a) = true -> (a <=? 0) = true.
Proof.
  intros Ha. pose proof (s_add_mono _ _ a Ha) as Hm.
  replace (0 + a) with a in Hm by ring.
  replace (- a + a) with 0 in Hm by ring. exact Hm.
Qed.

Lemma s_abs_mul (a b : V) : s_abs (a * b) = s_abs a * s_abs b.
Proof.
  destruct (s_leb_total 0 a) as [Ha | Ha], (s_leb_total 0 b) as [Hb | Hb].
  - rewrite (s_abs_of_nonneg a), (s_abs_of_nonneg b) by assumption.
    apply s_abs_of_nonneg, s_mul_nonneg; assumption.
  - rewrite (s_abs_of_nonneg a), (s_abs_of_nonpos b) by assumption.
    rewrite s_abs_of_nonpos; [ring |].
    apply s_nonpos_of_opp. replace (- (a * b)) with (a * - b) by ring.
    apply s_mul_nonneg; auto using s_opp_nonneg.
  - rewrite (s_abs_of_nonpos a), (s_abs_of_nonneg b) by assumption.
    rewrite s_abs_of_nonpos; [ring |].
    apply s_nonpos_of_opp. replace (- (a * b)) with (- a * b) by ring.
    apply s_mul_nonneg; auto using s_opp_nonneg.
  - rewrite (s_abs_of_nonpos a), (s_abs_of_nonpos b) by assumption.
    rewrite s_abs_of_nonneg; [ring |].
    replace (a * b) with (- a * - b) by ring.
    apply s_mul_nonneg; auto using s_opp_nonneg.
Qed.

Lemma s_abs_mul_bound (g d B D : V) :
  (s_abs g <=? B) = true -> (s_abs d <=? D) = true ->
  (s_abs (g * d) <=? B * D) = true.
Proof.
  intros Hg Hd. rewrite s_abs_mul.
  apply s_mul_le_mono; auto using s_abs_nonneg.
Qed.

End ScalarFacts.

(** ** Path: evaluation *)

Section PathEvaluation.
Import PathModel.
Context {V : Type} `{Scalar V}.

Lemma call_success_unfold (rt : Runtime V) (p : Path V) (t : V) :
  call_success rt p t =
    if fst (raw_config rt p t)
    then match constraints_ p with
         | Some c => (snd (cs_apply c (snd (raw_config rt p t))),
                      fst (cs_apply c (snd (raw_config rt p t))))
         | None => (snd (raw_config rt p t), true)
         end
    else (snd (raw_config rt p t), false).
Proof.
  unfold call_success, configAtParam, raw_config.
  destruct (impl_compute p _ _) as [ok q]; simpl.
  destruct ok; simpl; [| reflexivity].
  destruct (constraints_ p) as [c |]; [| reflexivity].
  destruct (cs_apply c q); reflexivity.
Qed.

(** C3 (as amended): evaluation with a success flag computes the raw
    configuration at [paramAtTime t].  When that computation reports a
    failure the flag is [false] and the projector is not run; otherwise
    the attached projector, if any, is applied and the flag is its result.
    The flag is [false] exactly when the raw computation failed or the
    projector did not converge. *)
Theorem call_success_flag (rt : Runtime V) (p : Path V) (t : V) :
  (fst (raw_config rt p t) = false ->
     call_success rt p t = (snd (raw_config rt p t), false)) /\
  (fst (raw_config rt p t) = true -> constraints_ p = None ->
     call_success rt p t = (snd (raw_config rt p t), true)) /\
  (forall c, fst (raw_config rt p t) = true -> constraints_ p = Some c ->
     call_success rt p t = (snd (cs_apply c (snd (raw_config rt p t))),
                            fst (cs_apply c (snd (raw_config rt p t))))) /\
  (snd (call_success rt p t) = false <->
     fst (raw_config rt p t) = false \/ projector_diverged rt p t).
Proof.
  rewrite call_success_unfold. unfold projector_diverged.
  destruct (fst (raw_config rt p t)) eqn:Hraw.
  - repeat split; try discriminate.
    + intros _ Hc. rewrite Hc. reflexivity.
    + intros c _ Hc. rewrite Hc. reflexivity.
    + destruct (constraints_ p) as [c |] eqn:Hc; simpl; intros Hflag.
      * right. exists c. split; [reflexivity | exact Hflag].
      * discriminate.
    + intros [Habs | [c [Hc Hdiv]]]; [discriminate |].
      rewrite Hc. simpl. exact Hdiv.
  - repeat split; try discriminate; auto.
Qed.

(** C9: the deprecated one-argument evaluation applies the projector
    whenever one is attached, whatever the raw computation reported, and
    returns the configuration left in the buffer; neither success
    indication reaches the caller, who cannot tell the path from its twin
    that never fails. *)
Theorem call_deprecated_discards_flags (rt : Runtime V) (p : Path V) (t : V) :
  (forall c, constraints_ p = Some c ->
     call_deprecated rt p t = snd (cs_apply c (snd (raw_config rt p t)))) /\
  (constraints_ p = None -> call_deprecated rt p t = snd (raw_config rt p t)) /\
  call_deprecated rt (silent p) t = call_deprecated rt p t.
Proof.
  unfold call_deprecated, raw_config, silent, paramAtTime, outputSize; simpl.
  destruct (impl_compute p _ _) as [ok q]; simpl.
  destruct (constraints_ p) as [c |]; simpl.
  - split; [| split].
    + intros c' Hc. injection Hc as <-.
      destruct (cs_apply c q); reflexivity.
    + discriminate.
    + destruct (cs_apply c q); reflexivity.
  - split; [discriminate | split; reflexivity].
Qed.

End PathEvaluation.

(** ** Path: derivative and the parameter range *)

Section PathDerivative.
Import PathModel PathOps.
Context {V : Type} `{Scalar V}.

Lemma assert_debug (rt : Runtime V) (cond : bool) (expr : string) :
  NDEBUG rt = false -> assert_ rt cond expr = if cond then Ok tt else AssertFailed expr.
Proof. intros Hd. unfold assert_. rewrite Hd. reflexivity. Qed.

Lemma assert_holds (rt : Runtime V) (expr : string) : assert_ rt true expr = Ok tt.
Proof. unfold assert_. destruct (NDEBUG rt); reflexivity. Qed.

Lemma assert_release (rt : Runtime V) (cond : bool) (expr : string) :
  NDEBUG rt = true -> assert_ rt cond expr = Ok tt.
Proof. intros Hd. unfold assert_. rewrite Hd. reflexivity. Qed.

(** C2 (as amended): with a time parameterization attached, [derivative]
    at order 1 is the shape's derivative at [timeParam.value (t)]
    multiplied by [timeParam.derivative (t)].  Any other order trips the
    assertion [order == 1] in a build with assertions; with assertions
    compiled out it goes to the shape like order 1, and the result is
    multiplied by [timeParam.derivative (t)] all the same.  Without a
    time parameterization, [t] and [order] go to the shape unchanged. *)
Theorem derivative_chain_rule (rt : Runtime V) (p : Path V) (result : vector_t V)
  (t : V) (order : size_type) :
  (forall tp, timeParam_ p = Some tp ->
     derivative rt p result t 1%Z =
       (r ← impl_derivative p result (tp_value tp t) 1%Z;
        mret (vscale r (tp_derivative tp t))) /\
     (NDEBUG rt = false -> order <> 1%Z ->
        derivative rt p result t order = AssertFailed "order == 1") /\
     (NDEBUG rt = true ->
        derivative rt p result t order =
          (r ← impl_derivative p result (tp_value tp t) order;
           mret (vscale r (tp_derivative tp t))))) /\
  (timeParam_ p = None ->
     derivative rt p result t order = impl_derivative p result t order).
Proof.
  unfold derivative. split.
  - intros tp Htp. rewrite Htp. split; [| split].
    + change (1 =? 1)%Z with true. rewrite assert_holds. reflexivity.
    + intros Hd Hne. rewrite assert_debug by exact Hd.
      destruct (Z.eqb_spec order 1) as [-> | _]; [contradiction | reflexivity].
    + intros Hd. rewrite assert_release by exact Hd. reflexivity.
  - intros Htp. rewrite Htp. reflexivity.
Qed.

Lemma paramRange_set_timeRange (p : Path V) (tr : interval_t V) :
  paramRange (set_timeRange p tr) = paramRange_rule (set_timeRange p tr).
Proof. unfold paramRange, paramRange_rule, set_timeRange; simpl. reflexivity. Qed.

Lemma paramRange_mutate (p : Path V) (m : mutation V) :
  paramRange p = paramRange_rule p ->
  paramRange (mutate p m) = paramRange_rule (mutate p m).
Proof.
  intros Hp. destruct m as [tr | tp tr | c]; cbn [mutate].
  - apply paramRange_set_timeRange.
  - unfold set_timeParameterization. apply paramRange_set_timeRange.
  - exact Hp.
Qed.

Lemma paramRange_mutate_all (ms : list (mutation V)) (p : Path V) :
  paramRange p = paramRange_rule p ->
  paramRange (mutate_all p ms) = paramRange_rule (mutate_all p ms).
Proof.
  revert p. induction ms as [| m ms IH]; intros p Hp; simpl.
  - exact Hp.
  - apply IH, paramRange_mutate, Hp.
Qed.

(** C4: on every path obtained from a constructor by the setters of
    path.hh, [paramRange ()] is the image of [timeRange ()] under the
    attached time parameterization, or [timeRange ()] itself when there
    is none.  Whatever the path was before, [timeRange (tr)] and
    [timeParameterization (tp, tr)] leave it in that state, the latter
    with time range [tr] and parameter range
    [[tp.value (tr.first), tp.value (tr.second)]]. *)
Theorem paramRange_invariant :
  (forall (interval : interval_t V) outputSize outputDerivativeSize constraints
          compute deriv vbound (ms : list (mutation V)),
     let p := mutate_all (construct interval outputSize outputDerivativeSize constraints
                            compute deriv vbound) ms in
     paramRange p = paramRange_rule p) /\
  (forall (p : Path V) tr,
     timeRange (set_timeRange p tr) = tr /\
     timeParameterization (set_timeRange p tr) = timeParameterization p /\
     paramRange (set_timeRange p tr) = paramRange_rule (set_timeRange p tr)) /\
  (forall (p : Path V) tp tr,
     timeRange (set_timeParameterization p (Some tp) tr) = tr /\
     timeParameterization (set_timeParameterization p (Some tp) tr) = Some tp /\
     paramRange (set_timeParameterization p (Some tp) tr)
       = (tp_value tp (fst tr), tp_value tp (snd tr))) /\
  (forall (p : Path V) tr,
     timeRange (set_timeParameterization p None tr) = tr /\
     paramRange (set_timeParameterization p None tr) = tr).
Proof.
  split; [| split; [| split]].
  - intros. subst p. apply paramRange_mutate_all. reflexivity.
  - intros p tr. split; [reflexivity | split; [reflexivity |]].
    apply paramRange_set_timeRange.
  - intros p tp tr. split; [reflexivity | split; reflexivity].
  - intros p tr. split; reflexivity.
Qed.

(** C6: [copy (constraints)] on a path that owns constraints is a fault,
    and no path comes back; on a path without constraints it returns the
    same path data and geometry carrying the given constraint set. *)
Theorem copy_with_constraints_precondition (p : Path V) (cs : ConstraintSet V) :
  (forall c0, constraints_ p = Some c0 ->
     copy_with_constraints p cs = AssertFailed "!path.constraints_" /\
     forall q, copy_with_constraints p cs <> Ok q) /\
  (constraints_ p = None ->
     exists q, copy_with_constraints p cs = Ok q /\
       constraints q = Some cs /\
       timeRange q = timeRange p /\ paramRange q = paramRange p /\
       timeParameterization q = timeParameterization p /\
       outputSize q = outputSize p /\ outputDerivativeSize q = outputDerivativeSize p /\
       impl_compute q = impl_compute p /\ impl_derivative q = impl_derivative p /\
       impl_velocityBound q = impl_velocityBound p).
Proof.
  unfold copy_with_constraints. split.
  - intros c0 Hc. rewrite Hc. split; [reflexivity | discriminate].
  - intros Hc. rewrite Hc. eexists. split; [reflexivity |].
    repeat split.
Qed.

End PathDerivative.

(** ** Path: velocity bounds and extraction *)

Section PathBounds.
Import PathModel PathOps.
Context {V : Type} `{ScalarLaws V}.
Local Open Scope scalar_scope.
Add Ring scalar_ring_bounds : s_ring.

Lemma bounded_by_vscale (B g : vector_t V) (d D : V) :
  bounded_by B g -> (s_abs d <=? D) = true ->
  bounded_by (vscale B D) (vscale g d).
Proof.
  intros HB Hd. unfold bounded_by, vscale.
  induction HB as [| bi gi B' g' Hi _ IH]; simpl; constructor.
  - apply s_abs_mul_bound; assumption.
  - exact IH.
Qed.

Lemma paramAtTime_mono (p : Path V) (a b : V) :
  timeParam_sound p -> (a <=? b) = true ->
  (paramAtTime p a <=? paramAtTime p b) = true.
Proof.
  unfold timeParam_sound, paramAtTime.
  destruct (timeParam_ p) as [tp |]; [intros [Hmono _] | intros _]; auto.
Qed.

Lemma velocityBound_asserted (rt : Runtime V) (p : Path V) (result : vector_t V) (t0 t1 : V) :
  (vsize result =? outputDerivativeSize p)%Z = true -> (t0 <=? t1) = true ->
  velocityBound rt p result t0 t1 = scaled_bound p result t0 t1.
Proof.
  intros Hsize Hle. unfold velocityBound, scaled_bound, clamped.
  rewrite Hsize, Hle, !assert_holds. simpl.
  destruct (impl_velocityBound p result _ _); simpl; try reflexivity.
  destruct (timeParam_ p); reflexivity.
Qed.

Lemma std_max_clamp (t0 first : V) :
  std_max t0 first = if first <=? t0 then t0 else first.
Proof. unfold std_max. rewrite s_ltb_leb. destruct (first <=? t0); reflexivity. Qed.

Lemma std_min_clamp (t1 second : V) :
  std_min t1 second = if t1 <=? second then t1 else second.
Proof. unfold std_min. rewrite s_ltb_leb. destruct (t1 <=? second); reflexivity. Qed.

(** C1 (as amended): for [t0 <= t1] and a result of the right size,
    [velocityBound] is the shape's velocity bound over the parameter
    interval obtained by clamping [[t0, t1]] to the time range and
    mapping both ends through [paramAtTime], multiplied by
    [derivativeBound (t0, t1)] when a time parameterization is attached.
    For a shape whose own bound is sound and a parameterization that is
    nondecreasing with a sound derivative bound, the result dominates,
    component by component, the magnitude of the derivative at every time
    of [[t0, t1]] that lies in the time range of the path. *)
Theorem velocityBound_sound (rt : Runtime V) (p : Path V) (result : vector_t V) (t0 t1 : V) :
  (vsize result =? outputDerivativeSize p)%Z = true ->
  (t0 <=? t1) = true ->
  velocityBound rt p result t0 t1 =
    (r ← impl_velocityBound p result
           (paramAtTime p (fst (clamp_to_timeRange p t0 t1)))
           (paramAtTime p (snd (clamp_to_timeRange p t0 t1)));
     mret (match timeParam_ p with
           | Some tp => vscale r (tp_derivativeBound tp t0 t1)
           | None => r
           end)) /\
  (shape_bound_sound p -> timeParam_sound p ->
   forall b t result' d,
     velocityBound rt p result t0 t1 = Ok b ->
     (t0 <=? t) = true -> (t <=? t1) = true ->
     (fst (timeRange p) <=? t) = true -> (t <=? snd (timeRange p)) = true ->
     derivative rt p result' t 1%Z = Ok d ->
     bounded_by b d).
Proof.
  intros Hsize Hle. split.
  { rewrite velocityBound_asserted by assumption.
    unfold scaled_bound, clamped, clamp_to_timeRange. cbn [fst snd].
    rewrite std_max_clamp, std_min_clamp. reflexivity. }
  intros Hshape Htp b t result' d Hb Ht0 Ht1 Hfirst Hsecond Hd.
  rewrite velocityBound_asserted in Hb by assumption.
  unfold scaled_bound, clamped in Hb. simpl in Hb.
  destruct (impl_velocityBound p result _ _) as [B | |] eqn:HB; simpl in Hb; try discriminate.
  assert (Hlo : (paramAtTime p (std_max t0 (fst (timeRange p))) <=? paramAtTime p t) = true)
    by (apply paramAtTime_mono; [exact Htp | apply std_max_lub; assumption]).
  assert (Hhi : (paramAtTime p t <=? paramAtTime p (std_min t1 (snd (timeRange p)))) = true)
    by (apply paramAtTime_mono; [exact Htp | apply std_min_glb; assumption]).
  unfold derivative in Hd. unfold timeParam_sound in Htp. unfold paramAtTime in Hlo, Hhi, HB.
  destruct (timeParam_ p) as [tp |] eqn:Etp.
  - change (1 =? 1)%Z with true in Hd. rewrite assert_holds in Hd. simpl in Hd.
    destruct (impl_derivative p result' (tp_value tp t) 1%Z) as [g | |] eqn:Hg;
      simpl in Hd; try discriminate.
    injection Hd as <-. injection Hb as <-.
    apply bounded_by_vscale.
    + exact (Hshape _ _ _ _ _ _ _ Hlo Hhi HB Hg).
    + destruct Htp as [_ Hbound]. apply Hbound; assumption.
  - injection Hb as <-.
    exact (Hshape _ _ _ _ _ _ _ Hlo Hhi HB Hd).
Qed.

(** C10: [velocityBound] guards [result.size () == outputDerivativeSize ()]
    and [t0 <= t1] by assertions and by nothing else.  With assertions
    compiled in, a wrongly sized result or a reversed interval stops at
    the assertion.  With assertions compiled out, the call goes to the
    shape whatever the size and the order of [t0] and [t1]; and the
    clamping keeps a reversed interval reversed. *)
Theorem velocityBound_preconditions (rt : Runtime V) (p : Path V) (result : vector_t V)
  (t0 t1 : V) :
  (NDEBUG rt = false -> (vsize result =? outputDerivativeSize p)%Z = false ->
     velocityBound rt p result t0 t1
       = AssertFailed "result.size() == outputDerivativeSize()") /\
  (NDEBUG rt = false -> (vsize result =? outputDerivativeSize p)%Z = true ->
     (t0 <=? t1) = false ->
     velocityBound rt p result t0 t1 = AssertFailed "t0 <= t1") /\
  (NDEBUG rt = true ->
     velocityBound rt p result t0 t1 = scaled_bound p result t0 t1) /\
  ((t1 <? t0) = true ->
     (std_min t1 (snd (timeRange p)) <? std_max t0 (fst (timeRange p))) = true).
Proof.
  split; [| split; [| split]].
  - intros Hd Hsize. unfold velocityBound.
    rewrite !assert_debug by exact Hd. rewrite Hsize. reflexivity.
  - intros Hd Hsize Hle. unfold velocityBound.
    rewrite !assert_debug by exact Hd. rewrite Hsize, Hle. reflexivity.
  - intros Hd. unfold velocityBound, scaled_bound, clamped.
    rewrite !assert_release by exact Hd. simpl.
    destruct (impl_velocityBound p result _ _); simpl; try reflexivity.
    destruct (timeParam_ p); reflexivity.
  - intros Hrev.
    apply (s_leb_ltb_trans _ t1); [apply std_min_le_l |].
    apply (s_ltb_leb_trans _ t0); [exact Hrev | apply std_max_ge_l].
Qed.

Lemma check_ends_Ok (rt : Runtime V) (p q : Path V) :
  check_ends rt p = Ok q ->
  q = p /\
  snd (call_success rt p (fst (timeRange_ p))) = true /\
  snd (call_success rt p (snd (timeRange_ p))) = true.
Proof.
  unfold check_ends.
  destruct (call_success rt p (fst (timeRange_ p))) as [c1 ok1].
  destruct (call_success rt p (snd (timeRange_ p))) as [c2 ok2]. simpl.
  destruct ok1, ok2; simpl; try discriminate.
  intros [= <-]. repeat split.
Qed.

Lemma check_ends_succeeds (rt : Runtime V) (p : Path V) :
  snd (call_success rt p (fst (timeRange_ p))) = true ->
  snd (call_success rt p (snd (timeRange_ p))) = true ->
  check_ends rt p = Ok p.
Proof.
  unfold check_ends.
  destruct (call_success rt p (fst (timeRange_ p))) as [c1 ok1].
  destruct (call_success rt p (snd (timeRange_ p))) as [c2 ok2]. simpl.
  intros -> ->. reflexivity.
Qed.

Lemma check_ends_fails (rt : Runtime V) (p : Path V) :
  snd (call_success rt p (fst (timeRange_ p)))
    && snd (call_success rt p (snd (timeRange_ p))) = false ->
  check_ends rt p = Thrown (projection_error "Failed to apply constraints").
Proof.
  unfold check_ends.
  destruct (call_success rt p (fst (timeRange_ p))) as [c1 ok1].
  destruct (call_success rt p (snd (timeRange_ p))) as [c2 ok2]. simpl.
  intros ->. reflexivity.
Qed.

Lemma mirror_ends (a b : V) : a + b - a = b /\ a + b - b = a.
Proof. split; ring. Qed.

(** C5: for [a < b], extraction over the reversed interval [[b, a]] is
    the extraction over [[a, b]] followed by [reverse].  Both succeed
    when the path evaluates with success at [a] and at [b], and both
    raise [projection_error] otherwise.  The forward extraction [q] is
    the path over [[a, b]]; the reversed one [r] has the same time range
    and runs backward: at every time [t] it evaluates as [q] at
    [a + b - t], so its ends are those of [q] swapped, and its first
    derivative is the opposite of that of [q] at [a + b - t]. *)
Theorem extract_reversed_interval (rt : Runtime V) (p : Path V) (a b : V) :
  (a <? b) = true ->
  extract rt p (b, a) = (q ← extract rt p (a, b); reverse rt q) /\
  (snd (call_success rt p a) = true -> snd (call_success rt p b) = true ->
     exists q r, extract rt p (a, b) = Ok q /\ extract rt p (b, a) = Ok r) /\
  (snd (call_success rt p a) && snd (call_success rt p b) = false ->
     extract rt p (a, b) = Thrown (projection_error "Failed to apply constraints") /\
     extract rt p (b, a) = Thrown (projection_error "Failed to apply constraints")) /\
  (forall q r, extract rt p (a, b) = Ok q -> extract rt p (b, a) = Ok r ->
     timeRange q = (a, b) /\ timeRange r = (a, b) /\
     (forall t, call_success rt q t = call_success rt p t) /\
     (forall t, call_success rt r t = call_success rt q (a + b - t)) /\
     call_success rt r a = call_success rt q b /\
     call_success rt r b = call_success rt q a /\
     (forall result t,
        derivative rt r result t 1%Z =
          (d ← derivative rt q result (a + b - t) 1%Z; mret (map s_opp d)))).
Proof.
  intros Hab.
  assert (Heq : extract rt p (b, a) = (q ← extract rt p (a, b); reverse rt q)).
  { unfold extract. simpl. rewrite Hab, (s_ltb_asym _ _ Hab). reflexivity. }
  assert (Hfwd : extract rt p (a, b) = check_ends rt (set_timeRange p (a, b))).
  { unfold extract, extract_forward. simpl. rewrite (s_ltb_asym _ _ Hab). reflexivity. }
  assert (Hsame : forall t, call_success rt (set_timeRange p (a, b)) t = call_success rt p t)
    by reflexivity.
  assert (Hmirror : forall q, timeRange_ q = (a, b) -> forall r, reverse rt q = Ok r ->
            timeRange r = (a, b) /\
            (forall t, call_success rt r t = call_success rt q (a + b - t)) /\
            (forall result t,
               derivative rt r result t 1%Z =
                 (d ← derivative rt q result (a + b - t) 1%Z; mret (map s_opp d)))).
  { intros q Hq r Hr. unfold reverse in Hr.
    apply check_ends_Ok in Hr as [-> _].
    split; [exact Hq | split].
    - intros t. unfold call_success, configAtParam, paramAtTime, at_, outputSize, mirror.
      simpl. rewrite Hq. reflexivity.
    - intros result t. unfold derivative at 1. simpl. unfold mirror. rewrite Hq. reflexivity. }
  destruct (mirror_ends a b) as [Ha Hb].
  split; [exact Heq | split; [| split]].
  - intros Hoka Hokb.
    assert (Hq : check_ends rt (set_timeRange p (a, b)) = Ok (set_timeRange p (a, b))).
    { apply check_ends_succeeds; simpl; rewrite Hsame; assumption. }
    exists (set_timeRange p (a, b)). eexists. split; [rewrite Hfwd; exact Hq |].
    rewrite Heq, Hfwd, Hq. simpl. unfold reverse.
    apply check_ends_succeeds; simpl;
      unfold call_success, configAtParam, paramAtTime, at_, outputSize, mirror; simpl.
    + rewrite Ha. exact Hokb.
    + rewrite Hb. exact Hoka.
  - intros Hfail.
    assert (Hq : check_ends rt (set_timeRange p (a, b))
                 = Thrown (projection_error "Failed to apply constraints")).
    { apply check_ends_fails. simpl. rewrite !Hsame. exact Hfail. }
    split; [rewrite Hfwd; exact Hq | rewrite Heq, Hfwd, Hq; reflexivity].
  - intros q r Hq Hr. rewrite Heq, Hq in Hr. simpl in Hr.
    rewrite Hfwd in Hq. apply check_ends_Ok in Hq as [-> _].
    destruct (Hmirror (set_timeRange p (a, b)) eq_refl r Hr) as [Hrange [Heval Hderiv]].
    split; [reflexivity | split; [exact Hrange | split; [exact Hsame | split; [exact Heval |]]]].
    split; [rewrite Heval, Ha; reflexivity | split; [rewrite Heval, Hb; reflexivity |]].
    exact Hderiv.
Qed.

End PathBounds.

(** ** ProblemSolver: names unknown to the numerical-constraint registry *)

Section Registry.
Import ProblemSolverModel.
Context {DifferentiableFunction VectorOfTypes : Type}.
Local Abbreviation Solver := (ProblemSolver DifferentiableFunction VectorOfTypes).
Local Abbreviation Call := (call DifferentiableFunction VectorOfTypes).

Lemma map_index_lookup {A} (m : gmap string (option A)) (key name : string) :
  match (map_index m key).1 !! name with Some v => v | None => None end
  = match m !! name with Some v => v | None => None end.
Proof.
  unfold map_index. destruct (m !! key) as [v |] eqn:E; simpl; [reflexivity |].
  destruct (decide (key = name)) as [-> | Hne].
  - rewrite lookup_insert_eq, E. reflexivity.
  - rewrite lookup_insert_ne by exact Hne. reflexivity.
Qed.

Lemma map_index_value {A} (m : gmap string (option A)) (key : string) :
  (map_index m key).2 = match m !! key with Some v => v | None => None end.
Proof. unfold map_index. destruct (m !! key); reflexivity. Qed.

Lemma registered_step (ps : Solver) (c : Call) (name : string) :
  adds name c = false -> registered (step ps c) name = registered ps name.
Proof.
  intros Hc. unfold registered.
  destruct c as [n df | n types | n eq | n | n]; simpl in *.
  - apply bool_decide_eq_false in Hc. rewrite lookup_insert_ne by exact Hc. reflexivity.
  - unfold comparisonType_types.
    pose proof (map_index_lookup (NumericalConstraintMap_ ps) n name) as Hm.
    destruct (map_index (NumericalConstraintMap_ ps) n) as [m df]; simpl in *.
    destruct df; simpl; exact Hm.
  - reflexivity.
  - unfold comparisonType_get. destruct (comparisonTypeMap_ ps !! n); reflexivity.
  - unfold numericalConstraint.
    pose proof (map_index_lookup (NumericalConstraintMap_ ps) n name) as Hm.
    destruct (map_index (NumericalConstraintMap_ ps) n) as [m df]; simpl in *. exact Hm.
Qed.

Lemma registered_fold (cs : list Call) (ps : Solver) (name : string) :
  never_added name cs -> registered (fold_left step cs ps) name = registered ps name.
Proof.
  unfold never_added. revert ps. induction cs as [| c cs IH]; intros ps Hcs; simpl in *.
  - reflexivity.
  - apply andb_true_iff in Hcs as [Hc Hcs]. apply negb_true_iff in Hc.
    rewrite IH by exact Hcs. apply registered_step, Hc.
Qed.

Lemma never_added_unregistered (cs : list Call) (name : string) :
  never_added name cs -> registered (run cs) name = None.
Proof.
  intros Hcs. unfold run. rewrite registered_fold by exact Hcs.
  unfold registered. simpl. rewrite lookup_empty. reflexivity.
Qed.

(** C7 (as amended): for a name that was never added to the registry,
    in every state the solver can reach, setting its comparison types
    raises [std::logic_error] and stores no comparison type; looking up
    the constraint raises nothing and returns a null pointer; reading its
    comparison type raises nothing and returns the comparison type stored
    under the name, or a new [Equality] when none is stored. *)
Theorem unknown_name_behaviour (cs : list Call) (name : string) :
  never_added name cs ->
  (forall types,
     snd (comparisonType_types (run cs) name types)
       = Thrown (std_logic_error ("Numerical constraint " ++ name ++ " not defined.")) /\
     comparisonTypeMap_ (fst (comparisonType_types (run cs) name types))
       = comparisonTypeMap_ (run cs)) /\
  snd (numericalConstraint (run cs) name) = Ok None /\
  snd (comparisonType_get (run cs) name)
    = Ok (match comparisonTypeMap_ (run cs) !! name with
          | Some eq => eq
          | None => Some Equality_create
          end).
Proof.
  intros Hcs. pose proof (never_added_unregistered cs name Hcs) as Hreg.
  assert (Hidx : (map_index (NumericalConstraintMap_ (run cs)) name).2 = None)
    by (rewrite map_index_value; exact Hreg).
  split; [| split].
  - intros types. unfold comparisonType_types.
    destruct (map_index (NumericalConstraintMap_ (run cs)) name) as [m df]; simpl in *.
    subst df. split; reflexivity.
  - unfold numericalConstraint.
    destruct (map_index (NumericalConstraintMap_ (run cs)) name) as [m df]; simpl in *.
    subst df. reflexivity.
  - unfold comparisonType_get.
    destruct (comparisonTypeMap_ (run cs) !! name) as [v |]; reflexivity.
Qed.

End Registry.

(** ** TimesFrameFunction: right multiplication in SE(3) *)

Section TimesFrameFacts.
Import TimesFrame.
Context {V : Type} `{ScalarLaws V}.
Local Open Scope scalar_scope.
Add Ring scalar_ring' : s_ring.

Ltac by_components :=
  unfold mmul, vmat, mvec, transpose, col0, col1, col2, mat3, add3, neg3, scale3,
    dot3, cross, vec3, qvec; simpl;
  repeat (f_equal; try ring).

Lemma transformVector_matrix (q : Quaternion_t V) (v : vector3 V) :
  _transformVector q v = mvec (toRotationMatrix q) v.
Proof.
  destruct q as [x y z w], v as [a b c].
  unfold _transformVector, toRotationMatrix. by_components.
Qed.

Lemma toRotationMatrix_unit (q : Quaternion_t V) :
  unit_quaternion q -> toRotationMatrix q = conjugation q.
Proof.
  destruct q as [x y z w]. unfold unit_quaternion, squaredNorm_q; simpl. intros Hn.
  unfold toRotationMatrix, conjugation, mat3, vec3; simpl.
  f_equal; f_equal; try ring.
  - replace (w * w + x * x - y * y - z * z)
      with (x * x + y * y + z * z + w * w - (2 * y * y + 2 * z * z)) by ring.
    rewrite Hn. reflexivity.
  - replace (w * w - x * x + y * y - z * z)
      with (x * x + y * y + z * z + w * w - (2 * x * x + 2 * z * z)) by ring.
    rewrite Hn. reflexivity.
  - replace (w * w - x * x - y * y + z * z)
      with (x * x + y * y + z * z + w * w - (2 * x * x + 2 * y * y)) by ring.
    rewrite Hn. reflexivity.
Qed.

Lemma squaredNorm_qmul (p q : Quaternion_t V) :
  squaredNorm_q (qmul p q) = squaredNorm_q p * squaredNorm_q q.
Proof. destruct p, q. unfold squaredNorm_q, qmul; simpl. ring. Qed.

Lemma unit_qmul (p q : Quaternion_t V) :
  unit_quaternion p -> unit_quaternion q -> unit_quaternion (qmul p q).
Proof.
  unfold unit_quaternion. intros Hp Hq. rewrite squaredNorm_qmul, Hp, Hq. ring.
Qed.

Lemma conjugation_qmul (p q : Quaternion_t V) :
  conjugation (qmul p q) = mmul (conjugation p) (conjugation q).
Proof.
  destruct p as [x y z w], q as [a b c d].
  unfold conjugation, qmul. by_components.
Qed.

Lemma toRotationMatrix_qmul (p q : Quaternion_t V) :
  unit_quaternion p -> unit_quaternion q ->
  toRotationMatrix (qmul p q) = mmul (toRotationMatrix p) (toRotationMatrix q).
Proof.
  intros Hp Hq.
  rewrite !toRotationMatrix_unit by auto using unit_qmul.
  apply conjugation_qmul.
Qed.

Lemma conjugation_orthogonal (q : Quaternion_t V) :
  unit_quaternion q ->
  mmul (transpose (conjugation q)) (conjugation q) = Identity3.
Proof.
  destruct q as [x y z w]. unfold unit_quaternion, squaredNorm_q; simpl. intros Hn.
  assert (Hsq : (x * x + y * y + z * z + w * w) * (x * x + y * y + z * z + w * w) = 1)
    by (rewrite Hn; ring).
  unfold conjugation, Identity3.
  unfold mmul, vmat, transpose, col0, col1, col2, mat3, dot3, vec3; simpl.
  f_equal; f_equal; try ring;
    (etransitivity; [| exact Hsq]); ring.
Qed.

Lemma SE3_inverse_left (A : Transform3f V) :
  mmul (transpose (rotation A)) (rotation A) = Identity3 ->
  SE3_mul (SE3_inverse A) A = SE3_Identity.
Proof.
  intros Horth. unfold SE3_mul, SE3_inverse, SE3_Identity; simpl.
  rewrite Horth. f_equal.
  destruct A as [[[a b c] [d e f] [g h i]] [t u v]].
  unfold zero3. by_components.
Qed.

Lemma squaredNorm_zero6 : squaredNorm (V := V) zero6 = 0.
Proof. unfold squaredNorm, zero6, zero3, dot3, vec3; simpl. ring. Qed.

End TimesFrameFacts.

Section TimesFrameCompute.
Import TimesFrame.
Context {V : Type} `{ScalarLaws V}.
Local Open Scope scalar_scope.
Add Ring scalar_ring'' : s_ring.

Variable exp6 : vector6_t V -> Transform3f V.
Variable log6 : Transform3f V -> vector6_t V.
Variable Quaternion_of_matrix : matrix3 V -> Quaternion_t V.
Variable tolerance : V.

Lemma SE3_of_compute_y (M : Transform3f V) (x : vector7 V) :
  library_contract exp6 log6 Quaternion_of_matrix tolerance -> rigid M -> unit_quaternion (tail4 x) ->
  SE3_of (compute_y (TimesFrameFunction_new log6 Quaternion_of_matrix M) x)
    = SE3_mul (SE3_of x) M.
Proof.
  intros [HQ _] [qM [HqM HM]] Hx.
  destruct (HQ qM HqM) as [Hunit Hmat].
  unfold SE3_of, compute_y, TimesFrameFunction_new, SE3_mul; simpl.
  rewrite HM, toRotationMatrix_qmul, Hmat by assumption.
  rewrite transformVector_matrix. f_equal.
  unfold add3, vec3; f_equal; ring.
Qed.

Lemma SE3_of_liegroup_plus (M : Transform3f V) (x : vector7 V) :
  library_contract exp6 log6 Quaternion_of_matrix tolerance -> rigid M -> unit_quaternion (tail4 x) ->
  SE3_of (liegroup_plus exp6 Quaternion_of_matrix x (log6 M)) = SE3_mul (SE3_of x) M.
Proof.
  intros [HQ [Hexp _]] HM Hx.
  unfold liegroup_plus. rewrite (Hexp M HM).
  destruct HM as [qM [HqM HM]].
  unfold SE3_of, SE3_mul; simpl. f_equal.
  rewrite HM, <- toRotationMatrix_qmul by assumption.
  apply HQ, unit_qmul; assumption.
Qed.

Lemma SE3_mul_orthogonal (M : Transform3f V) (x : vector7 V) :
  rigid M -> unit_quaternion (tail4 x) ->
  mmul (transpose (rotation (SE3_mul (SE3_of x) M))) (rotation (SE3_mul (SE3_of x) M))
    = Identity3.
Proof.
  intros [qM [HqM HM]] Hx. unfold SE3_mul, SE3_of; simpl.
  rewrite HM, <- toRotationMatrix_qmul by assumption.
  rewrite toRotationMatrix_unit by (apply unit_qmul; assumption).
  apply conjugation_orthogonal, unit_qmul; assumption.
Qed.

(** C8: for a rigid transform [M] and an input whose last four
    components are a quaternion of norm 1, [impl_compute] passes its
    assertion and returns the configuration of the SE(3) product
    [SE3 (x) * M], which is the Lie-group element [x + log6 (M)];
    [impl_jacobian] writes a matrix that depends neither on the input
    configuration nor on the previous contents of [J]. *)
Theorem timesFrame_right_multiplication (rt : Runtime V) (M : Transform3f V) (x : vector7 V) :
  library_contract exp6 log6 Quaternion_of_matrix tolerance -> rigid M -> unit_quaternion (tail4 x) ->
  let f := TimesFrameFunction_new log6 Quaternion_of_matrix M in
  impl_compute exp6 log6 Quaternion_of_matrix tolerance rt f x = Ok (compute_y f x) /\
  SE3_of (compute_y f x) = SE3_mul (SE3_of x) M /\
  SE3_of (compute_y f x) = SE3_of (liegroup_plus exp6 Quaternion_of_matrix x (log6 M)) /\
  (forall J J' x', impl_jacobian f J x = impl_jacobian f J' x') /\
  (forall J,
     impl_jacobian f J x =
       {| topLeftCorner := transpose (rotation M);
          topRightCorner := mmul (mneg (transpose (rotation M))) (skew (translation M));
          bottomLeftCorner := setZero;
          bottomRightCorner := transpose (rotation M) |}).
Proof.
  intros Hlib HM Hx f.
  pose proof (SE3_of_compute_y M x Hlib HM Hx) as Hy.
  pose proof (SE3_of_liegroup_plus M x Hlib HM Hx) as Hy1.
  fold f in Hy.
  split; [| split; [exact Hy | split; [congruence | split; reflexivity]]].
  unfold impl_compute, liegroup_minus.
  change (logM_ f) with (log6 M). fold f. rewrite Hy, Hy1.
  rewrite SE3_inverse_left by (apply SE3_mul_orthogonal; assumption).
  destruct Hlib as [_ [_ [Hid Htol]]].
  rewrite Hid, squaredNorm_zero6, Htol, assert_holds. reflexivity.
Qed.

End TimesFrameCompute.

(** ** The properties on concrete paths, solvers and transforms *)

Section Instances.
Import Examples PathModel PathOps.
Local Open Scope Z_scope.

Lemma parabola_bound_sound (p : Path Z) :
  impl_velocityBound p = parabola_velocityBound ->
  impl_derivative p = parabola_derivative ->
  shape_bound_sound p.
Proof.
  intros Hb Hd result result' s0 s1 s b d Hs0 Hs1. rewrite Hb, Hd.
  unfold parabola_velocityBound, parabola_derivative. simpl.
  intros [= <-] [= <-]. simpl in Hs0, Hs1.
  apply Z.leb_le in Hs0, Hs1.
  repeat constructor; unfold s_abs; simpl.
  - destruct (2 * s <? 0) eqn:E; apply Z.leb_le; lia.
Qed.

Lemma affine_sound : nondecreasing affine /\ derivativeBound_sound affine.
Proof.
  split.
  - intros a b Hab. simpl in *. apply Z.leb_le. apply Z.leb_le in Hab. lia.
  - intros t0 t1 t _ _. reflexivity.
Qed.

Example paramRange_timed_parabola :
  timeRange timed_parabola = (0, 3) /\ paramRange timed_parabola = (1, 7).
Proof. split; reflexivity. Qed.

Example clamped_timed_parabola : clamped timed_parabola 1 5 = (3, 7).
Proof. reflexivity. Qed.

(** On the timed parabola, whose time range is [[0, 3]], the bound asked
    over [[-5, 5]] is the shape's bound over the parameters [[1, 7]]
    doubled, and dominates the derivative at time 2. *)
Lemma velocityBound_sound_witness :
  clamp_to_timeRange timed_parabola (-5) 5 = (0, 3) /\
  velocityBound rt_debug timed_parabola [0; 0] (-5) 5 = Ok [2; 28] /\
  derivative rt_debug timed_parabola [0; 0] 2 1 = Ok [2; 20] /\
  bounded_by [2; 28] [2; 20].
Proof.
  destruct (velocityBound_sound rt_debug timed_parabola [0; 0] (-5) 5)
    as [Hvalue Hsound]; [reflexivity | reflexivity |].
  split; [reflexivity | split; [rewrite Hvalue; reflexivity | split; [reflexivity |]]].
  apply (Hsound (parabola_bound_sound timed_parabola eq_refl eq_refl) affine_sound
           [2; 28] 2 [0; 0] [2; 20]); reflexivity.
Defined.

Lemma guarded_bound_sound (p : Path Z) :
  impl_velocityBound p = guarded_velocityBound ->
  impl_derivative p = parabola_derivative ->
  shape_bound_sound p.
Proof.
  intros Hb Hd result result' s0 s1 s b d Hs0 Hs1. rewrite Hb, Hd.
  unfold guarded_velocityBound, parabola_derivative. simpl in *.
  apply Z.leb_le in Hs0, Hs1.
  destruct (s0 <=? s1) eqn:E; [| apply Z.leb_gt in E; lia].
  intros [= <-] [= <-].
  repeat constructor; unfold s_abs; simpl.
  destruct (2 * s <? 0) eqn:E'; apply Z.leb_le; lia.
Qed.

(** C1, as first stated, fails twice over.  On the parabola over
    [[0, 3]], whose bound is sound, the bound asked over [[1, 5]] is that
    of [[1, 3]] and is exceeded at time 5.  On the parabola run backward
    by the decreasing parameterization [t |-> - t], whose derivative
    bound is sound, the shape is asked for its bound over the empty
    parameter interval [[-1, -2]] and the result is exceeded at time 1,
    inside the time range. *)
Lemma bound_holds_on_interval_counterexample :
  (shape_bound_sound (parabola (0, 3) None) /\
   velocityBound rt_debug (parabola (0, 3) None) [0; 0] 1 5 = Ok [1; 6] /\
   derivative rt_debug (parabola (0, 3) None) [0; 0] 5 1 = Ok [1; 10] /\
   ~ bound_holds_on_interval rt_debug (parabola (0, 3) None) [0; 0] 1 5) /\
  (shape_bound_sound backward_parabola /\
   derivativeBound_sound backward /\
   (forall a b, (a <=? b) = true -> (tp_value backward b <=? tp_value backward a) = true) /\
   velocityBound rt_debug backward_parabola [0; 0] 1 2 = Ok [0; 0] /\
   derivative rt_debug backward_parabola [0; 0] 1 1 = Ok [-1; 2] /\
   ~ bound_holds_on_interval rt_debug backward_parabola [0; 0] 1 2).
Proof.
  split.
  - split; [apply parabola_bound_sound; reflexivity |].
    split; [reflexivity | split; [reflexivity |]].
    intros Hclaim.
    specialize (Hclaim [1; 6] 5 [0; 0] [1; 10] eq_refl eq_refl eq_refl eq_refl).
    inversion Hclaim as [| ? ? ? ? _ Htail]. inversion Htail as [| ? ? ? ? Hbad _].
    discriminate Hbad.
  - split; [apply guarded_bound_sound; reflexivity |].
    split; [intros t0 t1 t _ _; reflexivity |].
    split; [intros a b Hab; apply Z.leb_le; apply Z.leb_le in Hab; simpl; lia |].
    split; [reflexivity | split; [reflexivity |]].
    intros Hclaim.
    specialize (Hclaim [0; 0] 1 [0; 0] [-1; 2] eq_refl eq_refl eq_refl eq_refl).
    inversion Hclaim as [| ? ? ? ? Hbad _]. discriminate Hbad.
Qed.

(** A result of size 1 for a path of 2 degrees of freedom, and the
    reversed interval [[2, 1]], in both builds. *)
Lemma velocityBound_preconditions_witness :
  velocityBound rt_debug (parabola (0, 3) None) [0] 1 2
    = AssertFailed "result.size() == outputDerivativeSize()" /\
  velocityBound rt_debug (parabola (0, 3) None) [0; 0] 2 1 = AssertFailed "t0 <= t1" /\
  velocityBound rt_release (parabola (0, 3) None) [0] 2 1 = Ok [1; 4] /\
  (std_min 1 3 <? std_max 2 0) = true.
Proof.
  split; [| split; [| split]].
  - apply (velocityBound_preconditions rt_debug (parabola (0, 3) None) [0] 1 2); reflexivity.
  - apply (velocityBound_preconditions rt_debug (parabola (0, 3) None) [0; 0] 2 1); reflexivity.
  - destruct (velocityBound_preconditions rt_release (parabola (0, 3) None) [0] 2 1)
      as [_ [_ [Hrelease _]]].
    rewrite Hrelease; reflexivity.
  - destruct (velocityBound_preconditions rt_debug (parabola (0, 3) None) [0; 0] 2 1)
      as [_ [_ [_ Hreversed]]].
    apply Hreversed. reflexivity.
Defined.

(** Orders 1 and 2 on the timed parabola in both builds, order 2 on the
    plain one. *)
Lemma derivative_chain_rule_witness :
  derivative rt_debug timed_parabola [0; 0] 2 1 = Ok [2; 20] /\
  derivative rt_debug timed_parabola [0; 0] 2 2 = AssertFailed "order == 1" /\
  derivative rt_release timed_parabola [0; 0] 2 2 = Ok [0; 4] /\
  derivative rt_debug (parabola (0, 3) None) [0; 0] 2 2 = Ok [0; 2].
Proof.
  destruct (derivative_chain_rule rt_debug timed_parabola [0; 0] 2 2) as [Htimed _].
  destruct (Htimed affine eq_refl) as [Hfirst [Hhigher _]].
  destruct (derivative_chain_rule rt_release timed_parabola [0; 0] 2 2) as [Hreleased _].
  destruct (Hreleased affine eq_refl) as [_ [_ Hrelease]].
  destruct (derivative_chain_rule rt_debug (parabola (0, 3) None) [0; 0] 2 2) as [_ Hplain].
  split; [rewrite Hfirst; reflexivity | split; [| split]].
  - apply Hhigher; [reflexivity | discriminate].
  - rewrite (Hrelease eq_refl). reflexivity.
  - rewrite Hplain; reflexivity.
Defined.

(** C2, as first stated, fails: with assertions compiled out, order 2 on
    the timed parabola returns the shape's second derivative multiplied
    by the derivative of the parameterization. *)
Lemma higher_order_faults_counterexample :
  derivative rt_release timed_parabola [0; 0] 2 2 = Ok [0; 4] /\
  ~ higher_order_faults rt_release timed_parabola [0; 0] 2 2.
Proof.
  split; [reflexivity |].
  intros Hclaim. destruct Hclaim as [expr Hexpr]; [discriminate | discriminate |].
  discriminate Hexpr.
Qed.

(** The four ways an evaluation can go: raw failure, no projector,
    projector giving up, projector converging. *)
Lemma call_success_flag_witness :
  call_success rt_debug (partial_shape (-1, 1) (Some origin)) (-1) = ([-1; 0], false) /\
  call_success rt_debug (partial_shape (-1, 1) None) 1 = ([1; 1], true) /\
  call_success rt_debug (parabola (-1, 1) (Some diagonal)) (-1) = ([-1; 1], false) /\
  call_success rt_debug (parabola (-1, 1) (Some diagonal)) 1 = ([1; 1], true).
Proof.
  split; [| split; [| split]].
  - apply (call_success_flag rt_debug (partial_shape (-1, 1) (Some origin)) (-1)). reflexivity.
  - apply (call_success_flag rt_debug (partial_shape (-1, 1) None) 1); reflexivity.
  - destruct (call_success_flag rt_debug (parabola (-1, 1) (Some diagonal)) (-1))
      as [_ [_ [Hc _]]].
    rewrite (Hc diagonal eq_refl eq_refl). reflexivity.
  - destruct (call_success_flag rt_debug (parabola (-1, 1) (Some diagonal)) 1)
      as [_ [_ [Hc _]]].
    rewrite (Hc diagonal eq_refl eq_refl). reflexivity.
Defined.

(** C3, as first stated, fails: a shape whose raw computation reports a
    failure gives [success = false] on a path with no projector at all. *)
Lemma flag_tracks_projector_counterexample :
  ~ flag_tracks_projector rt_debug (partial_shape (-1, 1) None) (-1).
Proof.
  unfold flag_tracks_projector. intros [Hflag _].
  destruct (Hflag eq_refl) as [c [Hc _]]. discriminate Hc.
Qed.

(** The deprecated evaluation where the raw computation fails, where
    the projector gives up, and with no projector. *)
Lemma call_deprecated_discards_flags_witness :
  call_deprecated rt_debug (partial_shape (-1, 1) (Some origin)) (-1) = [0; 0] /\
  call_deprecated rt_debug (parabola (-1, 1) (Some diagonal)) (-1) = [-1; 1] /\
  call_deprecated rt_debug (partial_shape (-1, 1) None) (-1) = [-1; 0].
Proof.
  split; [| split].
  - destruct (call_deprecated_discards_flags rt_debug
                (partial_shape (-1, 1) (Some origin)) (-1)) as [Hc _].
    rewrite (Hc origin eq_refl). reflexivity.
  - destruct (call_deprecated_discards_flags rt_debug
                (parabola (-1, 1) (Some diagonal)) (-1)) as [Hc _].
    rewrite (Hc diagonal eq_refl). reflexivity.
  - destruct (call_deprecated_discards_flags rt_debug
                (partial_shape (-1, 1) None) (-1)) as [_ [Hn _]].
    rewrite (Hn eq_refl). reflexivity.
Defined.

(** Copying with constraints from a constrained and from a free path. *)
Lemma copy_with_constraints_precondition_witness :
  copy_with_constraints (parabola (0, 3) (Some diagonal)) origin
    = AssertFailed "!path.constraints_" /\
  exists q, copy_with_constraints (parabola (0, 3) None) origin = Ok q /\
            constraints q = Some origin /\ timeRange q = (0, 3).
Proof.
  split.
  - apply (copy_with_constraints_precondition (parabola (0, 3) (Some diagonal)) origin
             ) with (c0 := diagonal). reflexivity.
  - destruct (copy_with_constraints_precondition (parabola (0, 3) None) origin)
      as [_ Hfree].
    destruct (Hfree eq_refl) as [q [Hq [Hc [Ht _]]]].
    exists q. split; [exact Hq | split; [exact Hc | rewrite Ht; reflexivity]].
Defined.

(** Extraction of the parabola over [[2, 1]]: the result runs from the
    value at 2 to the value at 1. *)
Lemma extract_reversed_interval_witness :
  (1 <? 2) = true /\
  exists q r,
    extract rt_debug (parabola (0, 3) None) (1, 2) = Ok q /\
    extract rt_debug (parabola (0, 3) None) (2, 1) = Ok r /\
    timeRange r = (1, 2) /\
    call_success rt_debug q 1 = ([1; 1], true) /\
    call_success rt_debug q 2 = ([2; 4], true) /\
    call_success rt_debug r 1 = ([2; 4], true) /\
    call_success rt_debug r 2 = ([1; 1], true) /\
    derivative rt_debug r [0; 0] 1 1 = Ok [-1; -4].
Proof.
  split; [reflexivity |].
  destruct (extract_reversed_interval rt_debug (parabola (0, 3) None) 1 2)
    as [_ [Hboth [_ Hreversed]]]; [reflexivity |].
  destruct Hboth as [q [r [Hq Hr]]]; [reflexivity | reflexivity |].
  destruct (Hreversed q r Hq Hr) as [_ [Hrange [Hsame [Heval [Hfirst [Hsecond Hderivative]]]]]].
  assert (Hq1 : call_success rt_debug q 1 = ([1; 1], true))
    by (rewrite Hsame; reflexivity).
  assert (Hq2 : call_success rt_debug q 2 = ([2; 4], true))
    by (rewrite Hsame; reflexivity).
  exists q, r. split; [exact Hq | split; [exact Hr | split; [exact Hrange |]]].
  split; [exact Hq1 | split; [exact Hq2 | split; [| split]]].
  - rewrite Hfirst. exact Hq2.
  - rewrite Hsecond. exact Hq1.
  - rewrite Hderivative.
    unfold extract, extract_forward, check_ends in Hq. simpl in Hq.
    injection Hq as <-. reflexivity.
Defined.

End Instances.

Section MoreInstances.
Import Examples ProblemSolverModel TimesFrame.
Local Open Scope Z_scope.

Lemma never_added_gaze : never_added "gaze" session.
Proof. vm_compute. reflexivity. Qed.

(** The three operations on a name the session never added. *)
Lemma unknown_name_behaviour_witness :
  snd (comparisonType_types (run session) "gaze" [1%nat])
    = Thrown (std_logic_error "Numerical constraint gaze not defined.") /\
  snd (numericalConstraint (run session) "gaze") = Ok None /\
  snd (comparisonType_get (run session) "gaze") = Ok (Some Equality_create).
Proof.
  destruct (unknown_name_behaviour session "gaze" never_added_gaze)
    as [Htypes [Hlookup Hget]].
  split; [apply (Htypes [1%nat]) | split; [exact Hlookup | rewrite Hget; reflexivity]].
Defined.

(** C7, as first stated, fails: on a name that was never added, looking
    up the constraint and reading its comparison type return a value. *)
Lemma unknown_name_always_raises_counterexample :
  ~ unknown_name_always_raises session "gaze" [1%nat].
Proof.
  intros Hclaim. destruct (Hclaim never_added_gaze) as [_ [_ Hget]].
  vm_compute in Hget. discriminate Hget.
Qed.

Lemma Z_unit_quaternion (q : Quaternion_t Z) :
  unit_quaternion q ->
  In q [ Build_Quaternion_t 1 0 0 0; Build_Quaternion_t (-1) 0 0 0;
         Build_Quaternion_t 0 1 0 0; Build_Quaternion_t 0 (-1) 0 0;
         Build_Quaternion_t 0 0 1 0; Build_Quaternion_t 0 0 (-1) 0;
         Build_Quaternion_t 0 0 0 1; Build_Quaternion_t 0 0 0 (-1) ].
Proof.
  destruct q as [x y z w]. unfold unit_quaternion, squaredNorm_q; simpl. intros Hn.
  assert (Hx : x = -1 \/ x = 0 \/ x = 1) by nia.
  assert (Hy : y = -1 \/ y = 0 \/ y = 1) by nia.
  assert (Hz : z = -1 \/ z = 0 \/ z = 1) by nia.
  assert (Hw : w = -1 \/ w = 0 \/ w = 1) by nia.
  destruct Hx as [-> | [-> | ->]], Hy as [-> | [-> | ->]],
           Hz as [-> | [-> | ->]], Hw as [-> | [-> | ->]];
    try discriminate Hn; simpl; tauto.
Qed.

Lemma Z_library_contract : library_contract Z_exp6 Z_log6 Z_Quaternion_of_matrix 1.
Proof.
  split; [| split; [| split]].
  - intros q Hq. apply Z_unit_quaternion in Hq. simpl in Hq.
    repeat (destruct Hq as [<- | Hq]; [split; reflexivity |]). contradiction.
  - intros [R [a b c]] [q [Hq HR]]. simpl in HR. subst R.
    apply Z_unit_quaternion in Hq. simpl in Hq.
    repeat (destruct Hq as [<- | Hq]; [reflexivity |]). contradiction.
  - reflexivity.
  - reflexivity.
Qed.

Lemma rigid_half_turn_x : rigid half_turn_x.
Proof. exists (Build_Quaternion_t 1 0 0 0). split; reflexivity. Qed.

(** A half turn about z composed on the right with a half turn about x. *)
Lemma timesFrame_right_multiplication_witness :
  impl_compute Z_exp6 Z_log6 Z_Quaternion_of_matrix 1 rt_debug
    (TimesFrameFunction_new Z_log6 Z_Quaternion_of_matrix half_turn_x) pose_z
    = Ok {| head3 := vec3 3 3 9; tail4 := Build_Quaternion_t 0 1 0 0 |} /\
  SE3_of {| head3 := vec3 3 3 9; tail4 := Build_Quaternion_t 0 1 0 0 |}
    = SE3_mul (SE3_of pose_z) half_turn_x.
Proof.
  destruct (timesFrame_right_multiplication Z_exp6 Z_log6 Z_Quaternion_of_matrix 1
              rt_debug half_turn_x pose_z Z_library_contract rigid_half_turn_x eq_refl)
    as [Hcompute [Hproduct _]].
  split; [rewrite Hcompute; reflexivity | rewrite <- Hproduct; reflexivity].
Defined.

End MoreInstances.

(** * Further properties of the three files *)

(** ** Path: the evaluation operators against each other *)

Section PathOperators.
Import PathModel PathOps.
Context {V : Type} `{Scalar V}.

(** X1: [bool operator () (result, time)], run on a fresh vector, gives
    the configuration and the flag of
    [Configuration_t operator () (time, success)]. *)
Theorem call_out_call_success (rt : Runtime V) (p : Path V) (t : V) :
  call_out p (fresh_vector rt (outputSize p)) t
    = (snd (call_success rt p t), fst (call_success rt p t)).
Proof.
  unfold call_out, call_success, configAtParam.
  destruct (impl_compute p _ _) as [ok q]; simpl.
  destruct ok; simpl; [| reflexivity].
  destruct (constraints_ p) as [c |]; [| reflexivity].
  destruct (cs_apply c q); reflexivity.
Qed.

(** X2: whenever the evaluation with a success flag reports success, the
    deprecated evaluation returns the same configuration. *)
Theorem call_deprecated_on_success (rt : Runtime V) (p : Path V) (t : V) :
  snd (call_success rt p t) = true ->
  call_deprecated rt p t = fst (call_success rt p t).
Proof.
  unfold call_deprecated, call_success, configAtParam.
  destruct (impl_compute p _ _) as [ok q]; simpl.
  destruct ok; simpl; [| discriminate].
  destruct (constraints_ p) as [c |]; [| reflexivity].
  destruct (cs_apply c q); reflexivity.
Qed.

(** X3: [operator () (result, time)] leaves in [result] what
    [at (time, result)] leaves there, with the same flag, when the path
    has no constraints or when the raw computation fails: the projector
    runs only on a successful raw value. *)
Theorem call_out_is_at (p : Path V) (result : Configuration_t V) (t : V) :
  constraints_ p = None \/ fst (at_ p t result) = false ->
  call_out p result t = at_ p t result.
Proof.
  unfold call_out, at_.
  destruct (impl_compute p result (paramAtTime p t)) as [ok q]; simpl.
  intros [Hc | Hraw].
  - rewrite Hc. destruct ok; reflexivity.
  - rewrite Hraw. reflexivity.
Qed.

(** X4: changing the constraints of a path changes neither its
    derivative, nor its velocity bound, nor its raw evaluation: these
    three are those of the non-constrained path. *)
Theorem constraints_leave_derivatives (rt : Runtime V) (p : Path V)
  (c : option (ConstraintSet V)) (result : vector_t V) (t t0 t1 : V) (order : size_type) :
  derivative rt (set_constraints p c) result t order = derivative rt p result t order /\
  velocityBound rt (set_constraints p c) result t0 t1 = velocityBound rt p result t0 t1 /\
  at_ (set_constraints p c) t result = at_ p t result.
Proof.
  split; [| split].
  - unfold derivative. simpl. reflexivity.
  - unfold velocityBound, outputDerivativeSize, paramAtTime, timeRange. simpl. reflexivity.
  - unfold at_, paramAtTime. simpl. reflexivity.
Qed.

(** X5: [derivative] returns a vector only if the shape's
    [impl_derivative] returned one at the internal parameter, and then it
    is that vector, multiplied by [timeParam.derivative (t)] when a time
    parameterization is attached.  A shape that keeps the body [Path]
    gives to [impl_derivative] never gets a vector back. *)
Theorem derivative_returns (rt : Runtime V) (p : Path V) (result : vector_t V)
  (t : V) (order : size_type) :
  (forall d, derivative rt p result t order = Ok d ->
     exists g, impl_derivative p result (paramAtTime p t) order = Ok g /\
       d = match timeParam_ p with
           | Some tp => vscale g (tp_derivative tp t)
           | None => g
           end) /\
  (impl_derivative p = default_impl_derivative ->
     forall d, derivative rt p result t order <> Ok d).
Proof.
  assert (Hinv : forall d, derivative rt p result t order = Ok d ->
     exists g, impl_derivative p result (paramAtTime p t) order = Ok g /\
       d = match timeParam_ p with
           | Some tp => vscale g (tp_derivative tp t)
           | None => g
           end).
  { intros d. unfold derivative, paramAtTime.
    destruct (timeParam_ p) as [tp |].
    - destruct (assert_ rt (order =? 1)%Z "order == 1"); simpl; try discriminate.
      destruct (impl_derivative p result (tp_value tp t) order) as [g | |];
        simpl; try discriminate.
      intros [= <-]. exists g. split; reflexivity.
    - intros Hd. exists d. split; [exact Hd | reflexivity]. }
  split; [exact Hinv |].
  intros Hdefault d Hd. destruct (Hinv d Hd) as [g [Hg _]].
  rewrite Hdefault in Hg. discriminate Hg.
Qed.

(** X6: [velocityBound] returns a vector only if the shape's
    [impl_velocityBound] returned one over the clamped interval, and then
    it is that vector, scaled when a time parameterization is attached;
    in a build with assertions it returns one only for a result of the
    right size and [t0 <= t1].  A shape that keeps the body [Path] gives
    to [impl_velocityBound] never gets a vector back. *)
Theorem velocityBound_returns (rt : Runtime V) (p : Path V) (result : vector_t V)
  (t0 t1 : V) :
  (forall b, velocityBound rt p result t0 t1 = Ok b ->
     scaled_bound p result t0 t1 = Ok b /\
     (NDEBUG rt = false ->
        (vsize result =? outputDerivativeSize p)%Z = true /\ s_leb t0 t1 = true)) /\
  (impl_velocityBound p = default_impl_velocityBound ->
     forall b, velocityBound rt p result t0 t1 <> Ok b).
Proof.
  assert (Hinv : forall b, velocityBound rt p result t0 t1 = Ok b ->
     scaled_bound p result t0 t1 = Ok b /\
     (NDEBUG rt = false ->
        (vsize result =? outputDerivativeSize p)%Z = true /\ s_leb t0 t1 = true)).
  { intros b. unfold velocityBound, scaled_bound, clamped, assert_.
    destruct (NDEBUG rt); simpl.
    - intros Hb. split; [| discriminate].
      destruct (impl_velocityBound p result _ _); simpl in *; try discriminate.
      destruct (timeParam_ p); exact Hb.
    - destruct (vsize result =? outputDerivativeSize p)%Z; simpl; try discriminate.
      destruct (s_leb t0 t1); simpl; try discriminate.
      intros Hb. split; [| auto].
      destruct (impl_velocityBound p result _ _); simpl in *; try discriminate.
      destruct (timeParam_ p); exact Hb. }
  split; [exact Hinv |].
  intros Hdefault b Hb. destruct (Hinv b Hb) as [Hs _].
  unfold scaled_bound in Hs. rewrite Hdefault in Hs. discriminate Hs.
Qed.

Lemma mutate_keeps_geometry (p : Path V) (m : mutation V) :
  outputSize (mutate p m) = outputSize p /\
  outputDerivativeSize (mutate p m) = outputDerivativeSize p /\
  impl_compute (mutate p m) = impl_compute p /\
  impl_derivative (mutate p m) = impl_derivative p /\
  impl_velocityBound (mutate p m) = impl_velocityBound p.
Proof. destruct m; repeat split. Qed.

(** X7: no sequence of the setters of path.hh changes the sizes of a
    path or the methods of its shape. *)
Theorem setters_keep_geometry (ms : list (mutation V)) (p : Path V) :
  outputSize (mutate_all p ms) = outputSize p /\
  outputDerivativeSize (mutate_all p ms) = outputDerivativeSize p /\
  impl_compute (mutate_all p ms) = impl_compute p /\
  impl_derivative (mutate_all p ms) = impl_derivative p /\
  impl_velocityBound (mutate_all p ms) = impl_velocityBound p.
Proof.
  revert p. induction ms as [| m ms IH]; intros p; simpl.
  - repeat split.
  - destruct (IH (mutate p m)) as [H1 [H2 [H3 [H4 H5]]]].
    destruct (mutate_keeps_geometry p m) as [G1 [G2 [G3 [G4 G5]]]].
    rewrite H1, H2, H3, H4, H5. auto.
Qed.

End PathOperators.

(** ** Path: clamping and the neutral time parameterization *)

Section PathClamping.
Import PathModel PathOps.
Context {V : Type} `{ScalarLaws V}.
Local Open Scope scalar_scope.
Add Ring scalar_ring_clamp : s_ring.

(** The time parameterization that changes nothing: [value (t) = t], of
    derivative 1. *)
Definition identity_parameterization : TimeParameterization V :=
  {| tp_value := fun t => t;
     tp_derivative := fun _ => 1;
     tp_derivativeBound := fun _ _ => 1 |}.

Lemma std_max_inside (t0 first : V) : (first <=? t0) = true -> std_max t0 first = t0.
Proof. intros Hle. unfold std_max. rewrite s_ltb_leb, Hle. reflexivity. Qed.

Lemma std_min_inside (t1 second : V) : (t1 <=? second) = true -> std_min t1 second = t1.
Proof. intros Hle. unfold std_min. rewrite s_ltb_leb, Hle. reflexivity. Qed.

Lemma std_max_outside (t0 first : V) : (t0 <=? first) = true -> std_max t0 first = first.
Proof.
  intros Hle. unfold std_max. destruct (t0 <? first) eqn:E; [reflexivity |].
  apply s_leb_antisym; [exact Hle | apply s_ltb_false_leb, E].
Qed.

Lemma std_min_outside (t1 second : V) : (second <=? t1) = true -> std_min t1 second = second.
Proof.
  intros Hle. unfold std_min. destruct (second <? t1) eqn:E; [reflexivity |].
  apply s_leb_antisym; [apply s_ltb_false_leb, E | exact Hle].
Qed.

(** X8: for an interval [[t0, t1]] inside the time range of the path,
    [velocityBound] asks the shape for its bound over
    [[paramAtTime (t0), paramAtTime (t1)]]: nothing is clamped. *)
Theorem velocityBound_inside (rt : Runtime V) (p : Path V) (result : vector_t V) (t0 t1 : V) :
  (vsize result =? outputDerivativeSize p)%Z = true ->
  (t0 <=? t1) = true ->
  (fst (timeRange p) <=? t0) = true -> (t1 <=? snd (timeRange p)) = true ->
  velocityBound rt p result t0 t1 =
    (r ← impl_velocityBound p result (paramAtTime p t0) (paramAtTime p t1);
     mret (match timeParam_ p with
           | Some tp => vscale r (tp_derivativeBound tp t0 t1)
           | None => r
           end)).
Proof.
  intros Hsize Hle Hfirst Hsecond.
  rewrite velocityBound_asserted by assumption.
  unfold scaled_bound, clamped. simpl.
  rewrite std_max_inside, std_min_inside by assumption. reflexivity.
Qed.

(** X9: for an interval [[t0, t1]] that covers the time range of the
    path, [velocityBound] asks the shape for its bound over the whole
    parameter range, whatever [t0] and [t1] are. *)
Theorem velocityBound_covering (rt : Runtime V) (p : Path V) (result : vector_t V) (t0 t1 : V) :
  paramRange p = paramRange_rule p ->
  (vsize result =? outputDerivativeSize p)%Z = true ->
  (t0 <=? t1) = true ->
  (t0 <=? fst (timeRange p)) = true -> (snd (timeRange p) <=? t1) = true ->
  velocityBound rt p result t0 t1 =
    (r ← impl_velocityBound p result (fst (paramRange p)) (snd (paramRange p));
     mret (match timeParam_ p with
           | Some tp => vscale r (tp_derivativeBound tp t0 t1)
           | None => r
           end)).
Proof.
  intros Hrule Hsize Hle Hfirst Hsecond.
  rewrite velocityBound_asserted by assumption.
  unfold scaled_bound, clamped. simpl.
  rewrite std_max_outside, std_min_outside by assumption.
  rewrite Hrule. unfold paramRange_rule, paramAtTime, timeRange.
  destruct (timeParam_ p); reflexivity.
Qed.

Lemma vscale_one (r : vector_t V) : vscale r 1 = r.
Proof.
  unfold vscale. induction r as [| x r IH]; simpl; [reflexivity |].
  rewrite IH. f_equal. ring.
Qed.

(** X10: attaching the identity time parameterization over the same time
    range changes neither the ranges of a path without parameterization,
    nor its evaluation, nor its first derivative, nor its velocity
    bound. *)
Theorem identity_parameterization_neutral (rt : Runtime V) (p : Path V)
  (result : vector_t V) (t t0 t1 : V) :
  timeParam_ p = None ->
  paramRange p = paramRange_rule p ->
  let q := set_timeParameterization p (Some identity_parameterization) (timeRange p) in
  timeRange q = timeRange p /\
  paramRange q = paramRange p /\
  call_success rt q t = call_success rt p t /\
  derivative rt q result t 1%Z = derivative rt p result t 1%Z /\
  velocityBound rt q result t0 t1 = velocityBound rt p result t0 t1.
Proof.
  intros Hnone Hrule q. subst q.
  split; [reflexivity | split; [| split; [| split]]].
  - rewrite Hrule. unfold paramRange_rule. rewrite Hnone.
    unfold paramRange, set_timeParameterization, set_timeRange, timeRange; simpl.
    destruct (timeRange_ p); reflexivity.
  - unfold call_success, configAtParam, paramAtTime, outputSize; simpl.
    rewrite Hnone. reflexivity.
  - unfold derivative; simpl. rewrite Hnone.
    change (1 =? 1)%Z with true. rewrite assert_holds. simpl.
    destruct (impl_derivative p result t 1%Z); simpl; try reflexivity.
    unfold mret, outcome_ret. rewrite vscale_one. reflexivity.
  - unfold velocityBound, outputDerivativeSize, paramAtTime, timeRange; simpl.
    rewrite Hnone.
    destruct (assert_ rt _ "result.size() == outputDerivativeSize()"); simpl; try reflexivity.
    destruct (assert_ rt _ "t0 <= t1"); simpl; try reflexivity.
    destruct (impl_velocityBound p result _ _); simpl; try reflexivity.
    unfold mret, outcome_ret. rewrite vscale_one. reflexivity.
Qed.

End PathClamping.

(** ** ProblemSolver: adding, looking up and comparing *)

Section RegistryOperations.
Import ProblemSolverModel.
Context {DifferentiableFunction VectorOfTypes : Type}.
Local Abbreviation Solver' := (ProblemSolver DifferentiableFunction VectorOfTypes).
Local Abbreviation Call' := (call DifferentiableFunction VectorOfTypes).

(** The name a call is about. *)
Definition call_name (c : Call') : string :=
  match c with
  | AddNumericalConstraint name _ => name
  | ComparisonTypes name _ => name
  | ComparisonTypeSet name _ => name
  | ComparisonTypeGet name => name
  | NumericalConstraint name => name
  end.

Lemma map_index_present {A} (m : gmap string (option A)) (key : string) (v : option A) :
  m !! key = Some v -> map_index m key = (m, v).
Proof. intros E. unfold map_index. rewrite E. reflexivity. Qed.

Lemma map_index_absent {A} (m : gmap string (option A)) (key : string) :
  m !! key = None -> map_index m key = (<[key := None]> m, None).
Proof. intros E. unfold map_index. rewrite E. reflexivity. Qed.

(** X11: after [addNumericalConstraint (name, f)] with a function [f],
    looking [name] up returns [f] and changes nothing, its comparison
    type reads as [ComparisonType::createDefault ()] whatever was stored
    under the name before, and its comparison types can be set. *)
Theorem addNumericalConstraint_lookup (ps : Solver') (name : string)
  (f : DifferentiableFunction) (types : VectorOfTypes) :
  let ps' := addNumericalConstraint ps name (Some f) in
  numericalConstraint ps' name = (ps', Ok (Some f)) /\
  comparisonType_get ps' name = (ps', Ok (Some ComparisonType_createDefault)) /\
  snd (comparisonType_types ps' name types) = Ok tt.
Proof.
  intros ps'. subst ps'.
  unfold numericalConstraint, comparisonType_get, comparisonType_types,
    addNumericalConstraint; cbn [NumericalConstraintMap_ comparisonTypeMap_].
  rewrite (map_index_present _ name (Some f)) by apply lookup_insert_eq.
  rewrite lookup_insert_eq. repeat split.
Qed.

(** X12: [comparisonType (name, types)] succeeds exactly on the names
    bound to a function.  It then stores the comparison types, which
    [comparisonType (name)] reads back, and leaves every binding of the
    registry as it was. *)
Theorem comparisonType_types_defined (ps : Solver') (name : string) (types : VectorOfTypes) :
  (snd (comparisonType_types ps name types) = Ok tt <-> is_Some (registered ps name)) /\
  (is_Some (registered ps name) ->
     snd (comparisonType_get (fst (comparisonType_types ps name types)) name)
       = Ok (Some (ComparisonTypes_create types)) /\
     NumericalConstraintMap_ (fst (comparisonType_types ps name types))
       = NumericalConstraintMap_ ps).
Proof.
  unfold comparisonType_types, comparisonType_get, registered.
  destruct (NumericalConstraintMap_ ps !! name) as [[f |] |] eqn:E.
  - rewrite (map_index_present _ name (Some f) E).
    cbn [fst snd NumericalConstraintMap_ comparisonTypeMap_].
    rewrite lookup_insert_eq. repeat split; eauto.
  - rewrite (map_index_present _ name None E).
    split; [split; [discriminate | intros [x Hx]; discriminate] |].
    intros [x Hx]. discriminate.
  - rewrite (map_index_absent _ name E).
    split; [split; [discriminate | intros [x Hx]; discriminate] |].
    intros [x Hx]. discriminate.
Qed.

(** X13: looking up a name that is not a key of the registry makes it a
    key, bound to a null pointer: the lookup returns null, changes the
    registry, binds no name to a function, leaves the comparison types
    alone, and a second lookup changes nothing more. *)
Theorem numericalConstraint_inserts_null (ps : Solver') (name : string) :
  NumericalConstraintMap_ ps !! name = None ->
  let ps' := fst (numericalConstraint ps name) in
  snd (numericalConstraint ps name) = Ok None /\
  NumericalConstraintMap_ ps' !! name = Some None /\
  ps' <> ps /\
  (forall n, registered ps' n = registered ps n) /\
  comparisonTypeMap_ ps' = comparisonTypeMap_ ps /\
  numericalConstraint ps' name = (ps', Ok None).
Proof.
  intros Hnone ps'. subst ps'.
  unfold numericalConstraint. rewrite (map_index_absent _ name Hnone).
  cbn [fst snd NumericalConstraintMap_ comparisonTypeMap_].
  rewrite (map_index_present _ name None) by apply lookup_insert_eq.
  split; [reflexivity | split; [apply lookup_insert_eq | split; [| split; [| split; reflexivity]]]].
  - intros Heq. apply (f_equal (fun s => NumericalConstraintMap_ s !! name)) in Heq.
    cbn [NumericalConstraintMap_] in Heq. rewrite lookup_insert_eq, Hnone in Heq.
    discriminate.
  - intros n. unfold registered. cbn [NumericalConstraintMap_].
    unfold DifferentiableFunctionPtr_t in *.
    destruct (decide (name = n)) as [<- | Hne].
    + rewrite lookup_insert_eq, Hnone. reflexivity.
    + rewrite lookup_insert_ne by exact Hne. reflexivity.
Qed.

(** X14: adding a null pointer under a name makes the name a key with a
    default comparison type, yet setting its comparison types still
    raises [std::logic_error]: a name is defined by a non-null
    function. *)
Theorem addNumericalConstraint_null (ps : Solver') (name : string) (types : VectorOfTypes) :
  let ps' := addNumericalConstraint ps name None in
  NumericalConstraintMap_ ps' !! name = Some None /\
  snd (comparisonType_get ps' name) = Ok (Some ComparisonType_createDefault) /\
  comparisonType_types ps' name types
    = (ps', Thrown (std_logic_error ("Numerical constraint " ++ name ++ " not defined."))).
Proof.
  intros ps'. subst ps'.
  unfold comparisonType_get, comparisonType_types, addNumericalConstraint;
    cbn [NumericalConstraintMap_ comparisonTypeMap_].
  rewrite (map_index_present _ name None) by apply lookup_insert_eq.
  rewrite !lookup_insert_eq. repeat split.
Qed.

Lemma step_frame (ps : Solver') (c : Call') (name : string) :
  call_name c <> name ->
  NumericalConstraintMap_ (step ps c) !! name = NumericalConstraintMap_ ps !! name /\
  comparisonTypeMap_ (step ps c) !! name = comparisonTypeMap_ ps !! name.
Proof.
  intros Hne.
  destruct c as [n df | n types | n eq | n | n]; cbn [step call_name] in *.
  - unfold addNumericalConstraint; cbn [NumericalConstraintMap_ comparisonTypeMap_].
    rewrite !lookup_insert_ne by exact Hne. split; reflexivity.
  - unfold comparisonType_types.
    destruct (NumericalConstraintMap_ ps !! n) as [[f |] |] eqn:E.
    + rewrite (map_index_present _ n (Some f) E).
      cbn [fst NumericalConstraintMap_ comparisonTypeMap_].
      rewrite lookup_insert_ne by exact Hne. split; reflexivity.
    + rewrite (map_index_present _ n None E). split; reflexivity.
    + rewrite (map_index_absent _ n E).
      cbn [fst NumericalConstraintMap_ comparisonTypeMap_].
      rewrite lookup_insert_ne by exact Hne. split; reflexivity.
  - unfold comparisonType_set; cbn [fst NumericalConstraintMap_ comparisonTypeMap_].
    rewrite lookup_insert_ne by exact Hne. split; reflexivity.
  - unfold comparisonType_get. destruct (comparisonTypeMap_ ps !! n); split; reflexivity.
  - unfold numericalConstraint.
    destruct (NumericalConstraintMap_ ps !! n) as [v |] eqn:E.
    + rewrite (map_index_present _ n v E). split; reflexivity.
    + rewrite (map_index_absent _ n E).
      cbn [fst NumericalConstraintMap_ comparisonTypeMap_].
      rewrite lookup_insert_ne by exact Hne. split; reflexivity.
Qed.

(** X15: a call about one name leaves what both maps hold under every
    other name as it was. *)
Theorem step_other_names (ps : Solver') (c : Call') (name : string) :
  call_name c <> name ->
  NumericalConstraintMap_ (step ps c) !! name = NumericalConstraintMap_ ps !! name /\
  comparisonTypeMap_ (step ps c) !! name = comparisonTypeMap_ ps !! name.
Proof.
  intros Hne. destruct (step_frame ps c name Hne) as [Hfunction Hcomparison].
  split; [exact Hfunction | exact Hcomparison].
Qed.

Lemma step_comparison_grows (ps : Solver') (c : Call') (name : string) :
  is_Some (comparisonTypeMap_ ps !! name) ->
  is_Some (comparisonTypeMap_ (step ps c) !! name).
Proof.
  intros Hsome.
  destruct (decide (call_name c = name)) as [Heq | Hne].
  - destruct c as [n df | n types | n eq | n | n]; cbn [step call_name] in *; subst n.
    + unfold addNumericalConstraint; cbn [comparisonTypeMap_].
      rewrite lookup_insert_eq. eauto.
    + unfold comparisonType_types.
      destruct (NumericalConstraintMap_ ps !! name) as [[f |] |] eqn:E.
      * rewrite (map_index_present _ name (Some f) E). cbn [fst comparisonTypeMap_].
        rewrite lookup_insert_eq. eauto.
      * rewrite (map_index_present _ name None E). exact Hsome.
      * rewrite (map_index_absent _ name E). exact Hsome.
    + unfold comparisonType_set; cbn [fst comparisonTypeMap_].
      rewrite lookup_insert_eq. eauto.
    + unfold comparisonType_get.
      destruct (comparisonTypeMap_ ps !! name) eqn:E; cbn [fst]; rewrite ?E; exact Hsome.
    + unfold numericalConstraint.
      destruct (map_index (NumericalConstraintMap_ ps) name). exact Hsome.
  - destruct (step_frame ps c name Hne) as [_ Hc]. rewrite Hc. exact Hsome.
Qed.

Lemma step_keeps_comparison (ps : Solver') (c : Call') :
  (forall name f, registered ps name = Some f ->
     is_Some (comparisonTypeMap_ ps !! name)) ->
  forall name f, registered (step ps c) name = Some f ->
    is_Some (comparisonTypeMap_ (step ps c) !! name).
Proof.
  intros Hinv name f Hreg.
  destruct (adds name c) eqn:Hadd.
  - destruct c as [n df | n types | n eq | n | n]; try discriminate Hadd.
    apply bool_decide_eq_true in Hadd. subst n. cbn [step].
    unfold addNumericalConstraint; cbn [comparisonTypeMap_].
    rewrite lookup_insert_eq. eauto.
  - rewrite registered_step in Hreg by exact Hadd.
    apply step_comparison_grows, (Hinv name f), Hreg.
Qed.

(** X16: in every state the solver reaches from an empty registry, a
    name bound to a function has a comparison type stored, so reading it
    never falls back on a new [Equality]. *)
Theorem registered_has_comparisonType (cs : list Call') (name : string)
  (f : DifferentiableFunction) :
  registered (run cs) name = Some f ->
  exists eq, comparisonTypeMap_ (run cs) !! name = Some eq /\
             comparisonType_get (run cs) name = (run cs, Ok eq).
Proof.
  intros Hreg.
  assert (Hinv : forall (l : list Call') (ps : Solver'),
    (forall n g, registered ps n = Some g -> is_Some (comparisonTypeMap_ ps !! n)) ->
    forall n g, registered (fold_left step l ps) n = Some g ->
                is_Some (comparisonTypeMap_ (fold_left step l ps) !! n)).
  { induction l as [| c l IH]; intros ps Hps; simpl; [exact Hps |].
    apply IH, step_keeps_comparison, Hps. }
  destruct (Hinv cs ProblemSolver_new) with (n := name) (g := f) as [eq Heq].
  - intros n g. unfold registered. simpl. rewrite lookup_empty. discriminate.
  - exact Hreg.
  - exists eq. split; [exact Heq |]. unfold comparisonType_get.
    fold (run cs) in Heq. rewrite Heq. reflexivity.
Qed.

End RegistryOperations.

(** ** ProblemSolver: the deprecated [addConstraintToConfigProjector] *)

Section ConfigProjectorEntry.
Import ProblemSolverModel.
(** Shared pointers to functions are compared by address: equality of
    the objects pointed to is decidable. *)
Context {DifferentiableFunction VectorOfTypes : Type} `{EqDecision DifferentiableFunction}.
Local Abbreviation Solver'' := (ProblemSolver DifferentiableFunction VectorOfTypes).

(** [addFunctionToConfigProjector] is virtual and only declared in the
    header: the call is kept, its effect is whatever the callee does. *)
Variable addFunctionToConfigProjector : Solver'' -> string -> string -> Solver'' * outcome unit.

(** A [std::map] keyed by [std::string] is iterated in the
    lexicographic order of its keys. *)
Definition key_le (x y : string * option DifferentiableFunction) : Prop :=
  String.leb (fst x) (fst y) = true.

#[local] Instance key_le_dec : RelDecision key_le :=
  fun x y => decide (String.leb (fst x) (fst y) = true).

Definition iteration (m : gmap string (option DifferentiableFunction))
  : list (string * option DifferentiableFunction) :=
  merge_sort key_le (map_to_list m).

(** The body of the loop: [if (it->second == constraint)
    { functionName = it->first; found = true; }]. *)
Definition visit (constraint : option DifferentiableFunction) (acc : string * bool)
  (it : string * option DifferentiableFunction) : string * bool :=
  if bool_decide (snd it = constraint) then (fst it, true) else acc.

Definition addConstraintToConfigProjector (ps : Solver'') (constraintName : string)
  (constraint : option DifferentiableFunction) (comp : ComparisonTypePtr_t VectorOfTypes)
  : Solver'' * outcome unit :=
  let '(functionName, found) :=
    fold_left (visit constraint) (iteration (NumericalConstraintMap_ ps)) ("", false) in
  if negb found
  then (ps, Thrown (std_runtime_error "constraint is not in the map"))
  else addFunctionToConfigProjector
         {| NumericalConstraintMap_ := NumericalConstraintMap_ ps;
            comparisonTypeMap_ := <[functionName := comp]> (comparisonTypeMap_ ps) |}
         constraintName functionName.

Lemma string_leb_refl (a : string) : String.leb a a = true.
Proof. destruct (String.leb_total a a); assumption. Qed.

Lemma string_leb_trans (a b c : string) :
  String.leb a b = true -> String.leb b c = true -> String.leb a c = true.
Proof.
  unfold String.leb. revert b c.
  induction a as [| x a IH]; intros [| y b] [| z c]; simpl; try (intros; congruence).
  unfold Ascii.compare.
  destruct (N.compare_spec (Ascii.N_of_ascii x) (Ascii.N_of_ascii y)) as [Hxy | Hxy | Hxy],
           (N.compare_spec (Ascii.N_of_ascii y) (Ascii.N_of_ascii z)) as [Hyz | Hyz | Hyz],
           (N.compare_spec (Ascii.N_of_ascii x) (Ascii.N_of_ascii z)) as [Hxz | Hxz | Hxz];
    try (intros; congruence); try lia.
  apply IH.
Qed.

#[local] Instance key_le_trans : Transitive key_le.
Proof. intros x y z. unfold key_le. apply string_leb_trans. Qed.

#[local] Instance key_le_total : Total key_le.
Proof. intros x y. unfold key_le. apply String.leb_total. Qed.

Lemma iteration_elem (m : gmap string (option DifferentiableFunction)) (k : string)
  (v : option DifferentiableFunction) :
  (k, v) ∈ iteration m <-> m !! k = Some v.
Proof.
  unfold iteration. rewrite merge_sort_Permutation. apply elem_of_map_to_list.
Qed.

Lemma visit_sorted (constraint : option DifferentiableFunction)
  (l : list (string * option DifferentiableFunction)) :
  StronglySorted key_le l ->
  let r := fold_left (visit constraint) l ("", false) in
  (snd r = false /\ forall it, it ∈ l -> snd it <> constraint) \/
  (snd r = true /\ (fst r, constraint) ∈ l /\
   forall it, it ∈ l -> snd it = constraint -> String.leb (fst it) (fst r) = true).
Proof.
  induction l as [| x l IH] using rev_ind; intros Hsorted; simpl.
  - left. split; [reflexivity |]. intros it Hit. inversion Hit.
  - apply StronglySorted_app in Hsorted as [Hle [Hl _]].
    rewrite fold_left_app. cbn [fold_left].
    set (acc := fold_left (visit constraint) l ("", false)) in *.
    unfold visit. destruct (bool_decide (snd x = constraint)) eqn:E.
    + apply bool_decide_eq_true in E. right. simpl.
      split; [reflexivity | split].
      * apply elem_of_app. right. destruct x as [k v]. simpl in E. subst v.
        apply list_elem_of_singleton. reflexivity.
      * intros it Hit _. apply elem_of_app in Hit as [Hit | Hit].
        -- apply (Hle it x Hit). apply list_elem_of_singleton. reflexivity.
        -- apply list_elem_of_singleton in Hit. subst it. apply string_leb_refl.
    + apply bool_decide_eq_false in E.
      destruct (IH Hl) as [[Hr Hnone] | [Hr [Hin Hmax]]].
      * left. split; [exact Hr |].
        intros it Hit. apply elem_of_app in Hit as [Hit | Hit]; [auto |].
        apply list_elem_of_singleton in Hit. subst it. exact E.
      * right. split; [exact Hr | split].
        -- apply elem_of_app. left. exact Hin.
        -- intros it Hit Hc. apply elem_of_app in Hit as [Hit | Hit]; [auto |].
           apply list_elem_of_singleton in Hit. subst it. contradiction.
Qed.

Lemma visit_iteration (constraint : option DifferentiableFunction)
  (m : gmap string (option DifferentiableFunction)) :
  let r := fold_left (visit constraint) (iteration m) ("", false) in
  (snd r = false /\ forall k, m !! k <> Some constraint) \/
  (snd r = true /\ m !! fst r = Some constraint /\
   forall k, m !! k = Some constraint -> String.leb k (fst r) = true).
Proof.
  destruct (visit_sorted constraint (iteration m)) as [[Hr Hnone] | [Hr [Hin Hmax]]].
  - apply StronglySorted_merge_sort; typeclasses eauto.
  - left. split; [exact Hr |]. intros k Hk.
    apply iteration_elem in Hk. apply (Hnone _ Hk). reflexivity.
  - right. split; [exact Hr | split].
    + apply iteration_elem, Hin.
    + intros k Hk. apply iteration_elem in Hk. apply (Hmax _ Hk). reflexivity.
Qed.

(** X17: [addConstraintToConfigProjector] with a constraint that no
    name of the registry is bound to raises [std::runtime_error], leaves
    the solver as it was and does not reach
    [addFunctionToConfigProjector]. *)
Theorem addConstraintToConfigProjector_unknown (ps : Solver'') (constraintName : string)
  (constraint : option DifferentiableFunction) (comp : ComparisonTypePtr_t VectorOfTypes) :
  (forall k, NumericalConstraintMap_ ps !! k <> Some constraint) ->
  addConstraintToConfigProjector ps constraintName constraint comp
    = (ps, Thrown (std_runtime_error "constraint is not in the map")).
Proof.
  intros Hnone. unfold addConstraintToConfigProjector.
  destruct (visit_iteration constraint (NumericalConstraintMap_ ps))
    as [[Hr _] | [_ [Hin _]]].
  - destruct (fold_left _ _ _) as [functionName found]. simpl in Hr. subst found.
    reflexivity.
  - exfalso. exact (Hnone _ Hin).
Qed.

(** X18: [addConstraintToConfigProjector] with a constraint the registry
    holds stores the comparison type under a name bound to that
    constraint, the last such name in the order of the keys, and hands
    that name to [addFunctionToConfigProjector]; the registry itself is
    passed on unchanged. *)
Theorem addConstraintToConfigProjector_known (ps : Solver'') (constraintName k : string)
  (constraint : option DifferentiableFunction) (comp : ComparisonTypePtr_t VectorOfTypes) :
  NumericalConstraintMap_ ps !! k = Some constraint ->
  exists functionName,
    NumericalConstraintMap_ ps !! functionName = Some constraint /\
    (forall k', NumericalConstraintMap_ ps !! k' = Some constraint ->
                String.leb k' functionName = true) /\
    addConstraintToConfigProjector ps constraintName constraint comp
      = addFunctionToConfigProjector
          {| NumericalConstraintMap_ := NumericalConstraintMap_ ps;
             comparisonTypeMap_ := <[functionName := comp]> (comparisonTypeMap_ ps) |}
          constraintName functionName.
Proof.
  intros Hk. unfold addConstraintToConfigProjector.
  destruct (visit_iteration constraint (NumericalConstraintMap_ ps))
    as [[_ Hnone] | [Hr [Hin Hmax]]].
  - exfalso. exact (Hnone k Hk).
  - destruct (fold_left _ _ _) as [functionName found]. simpl in *. subst found.
    exists functionName. split; [exact Hin | split; [exact Hmax | reflexivity]].
Qed.

End ConfigProjectorEntry.

(** ** TimesFrameFunction: norm, composition, inverse and Jacobian *)

Section TimesFrameAlgebra.
Import TimesFrame.
Context {V : Type} `{ScalarLaws V}.
Local Open Scope scalar_scope.
Add Ring scalar_ring_frame : s_ring.

(** The conjugate of a quaternion, Eigen's [conjugate ()]. *)
Definition qconj (q : Quaternion_t V) : Quaternion_t V :=
  {| q_x := - q_x q; q_y := - q_y q; q_z := - q_z q; q_w := q_w q |}.

(** Sum of 3x3 matrices, product of 6x6 matrices by blocks, and the 6x6
    identity. *)
Definition madd (a b : matrix3 V) : matrix3 V :=
  mat3 (add3 (row0 a) (row0 b)) (add3 (row1 a) (row1 b)) (add3 (row2 a) (row2 b)).

Definition mmul6 (a b : matrix6 V) : matrix6 V :=
  {| topLeftCorner :=
       madd (mmul (topLeftCorner a) (topLeftCorner b))
            (mmul (topRightCorner a) (bottomLeftCorner b));
     topRightCorner :=
       madd (mmul (topLeftCorner a) (topRightCorner b))
            (mmul (topRightCorner a) (bottomRightCorner b));
     bottomLeftCorner :=
       madd (mmul (bottomLeftCorner a) (topLeftCorner b))
            (mmul (bottomRightCorner a) (bottomLeftCorner b));
     bottomRightCorner :=
       madd (mmul (bottomLeftCorner a) (topRightCorner b))
            (mmul (bottomRightCorner a) (bottomRightCorner b)) |}.

Definition Identity6 : matrix6 V :=
  {| topLeftCorner := Identity3; topRightCorner := setZero;
     bottomLeftCorner := setZero; bottomRightCorner := Identity3 |}.

(** The matrix of the adjoint action of a transform [(R, t)] on
    velocities: [[R, [t]x R], [0, R]]. *)
Definition adjoint (M : Transform3f V) : matrix6 V :=
  {| topLeftCorner := rotation M;
     topRightCorner := mmul (skew (translation M)) (rotation M);
     bottomLeftCorner := setZero;
     bottomRightCorner := rotation M |}.

Ltac componentwise :=
  unfold madd, mmul, vmat, mvec, transpose, mneg, skew, setZero, Identity3, zero3,
    col0, col1, col2, mat3, add3, neg3, scale3, dot3, cross, vec3, qvec; simpl;
  repeat (f_equal; try ring).

Lemma SE3_mul_assoc (A B C : Transform3f V) :
  SE3_mul (SE3_mul A B) C = SE3_mul A (SE3_mul B C).
Proof.
  destruct A as [[[a0 a1 a2] [a3 a4 a5] [a6 a7 a8]] [ta tb tc]],
           B as [[[b0 b1 b2] [b3 b4 b5] [b6 b7 b8]] [ua ub uc]],
           C as [[[c0 c1 c2] [c3 c4 c5] [c6 c7 c8]] [va vb vc]].
  unfold SE3_mul; simpl. componentwise.
Qed.

Lemma SE3_mul_Identity (A : Transform3f V) : SE3_mul A SE3_Identity = A.
Proof.
  destruct A as [[[a0 a1 a2] [a3 a4 a5] [a6 a7 a8]] [ta tb tc]].
  unfold SE3_mul, SE3_Identity; simpl. componentwise.
Qed.

Lemma toRotationMatrix_qconj (q : Quaternion_t V) :
  toRotationMatrix (qconj q) = transpose (toRotationMatrix q).
Proof.
  destruct q as [x y z w]. unfold toRotationMatrix, qconj; simpl. componentwise.
Qed.

Lemma unit_qconj (q : Quaternion_t V) : unit_quaternion q -> unit_quaternion (qconj q).
Proof.
  destruct q as [x y z w]. unfold unit_quaternion, squaredNorm_q, qconj; simpl.
  intros Hn. rewrite <- Hn. ring.
Qed.

Lemma rigid_SE3_mul (A B : Transform3f V) : rigid A -> rigid B -> rigid (SE3_mul A B).
Proof.
  intros [qa [Hqa HA]] [qb [Hqb HB]]. exists (qmul qa qb).
  split; [apply unit_qmul; assumption |].
  unfold SE3_mul; simpl. rewrite HA, HB. symmetry. apply toRotationMatrix_qmul; assumption.
Qed.

Lemma rigid_SE3_inverse (A : Transform3f V) : rigid A -> rigid (SE3_inverse A).
Proof.
  intros [q [Hq HA]]. exists (qconj q).
  split; [apply unit_qconj, Hq |].
  unfold SE3_inverse; simpl. rewrite HA. symmetry. apply toRotationMatrix_qconj.
Qed.

Lemma rigid_orthogonal (A : Transform3f V) :
  rigid A -> mmul (transpose (rotation A)) (rotation A) = Identity3.
Proof.
  intros [q [Hq HA]]. rewrite HA, toRotationMatrix_unit by exact Hq.
  apply conjugation_orthogonal, Hq.
Qed.

(** X19: the quaternion [impl_compute] writes has the squared norm of
    the input's multiplied by that of the stored quaternion: nothing is
    normalised, and a unit input with a unit stored quaternion gives a
    unit output. *)
Theorem compute_y_norm (f : TimesFrameFunction V) (x : vector7 V) :
  squaredNorm_q (tail4 (compute_y f x))
    = squaredNorm_q (tail4 x) * squaredNorm_q (oQi_ f) /\
  (unit_quaternion (tail4 x) -> unit_quaternion (oQi_ f) ->
   unit_quaternion (tail4 (compute_y f x))).
Proof.
  unfold compute_y; simpl. split.
  - apply squaredNorm_qmul.
  - apply unit_qmul.
Qed.

Variable exp6 : vector6_t V -> Transform3f V.
Variable log6 : Transform3f V -> vector6_t V.
Variable Quaternion_of_matrix : matrix3 V -> Quaternion_t V.
Variable tolerance : V.

Lemma compute_y_unit (M : Transform3f V) (x : vector7 V) :
  library_contract exp6 log6 Quaternion_of_matrix tolerance -> rigid M ->
  unit_quaternion (tail4 x) ->
  unit_quaternion (tail4 (compute_y (TimesFrameFunction_new log6 Quaternion_of_matrix M) x)).
Proof.
  intros [HQ _] [qM [HqM HM]] Hx. unfold compute_y; simpl.
  apply unit_qmul; [exact Hx |]. rewrite HM. apply HQ, HqM.
Qed.

(** X20: right multiplications compose: applying the function of [M1]
    and then the function of [M2] gives the SE(3) element that the
    function of [M1 * M2] gives. *)
Theorem compute_y_compose (M1 M2 : Transform3f V) (x : vector7 V) :
  library_contract exp6 log6 Quaternion_of_matrix tolerance ->
  rigid M1 -> rigid M2 -> unit_quaternion (tail4 x) ->
  SE3_of (compute_y (TimesFrameFunction_new log6 Quaternion_of_matrix M2)
            (compute_y (TimesFrameFunction_new log6 Quaternion_of_matrix M1) x))
    = SE3_of (compute_y (TimesFrameFunction_new log6 Quaternion_of_matrix (SE3_mul M1 M2)) x).
Proof.
  intros Hlib H1 H2 Hx.
  rewrite (SE3_of_compute_y exp6 log6 Quaternion_of_matrix tolerance M2)
    by (try apply compute_y_unit; assumption).
  rewrite (SE3_of_compute_y exp6 log6 Quaternion_of_matrix tolerance M1) by assumption.
  rewrite (SE3_of_compute_y exp6 log6 Quaternion_of_matrix tolerance (SE3_mul M1 M2))
    by (try apply rigid_SE3_mul; assumption).
  apply SE3_mul_assoc.
Qed.

(** X21: the function of [M] undoes the function of the inverse of [M]:
    applied one after the other they give back the SE(3) element of the
    input. *)
Theorem compute_y_inverse (M : Transform3f V) (x : vector7 V) :
  library_contract exp6 log6 Quaternion_of_matrix tolerance ->
  rigid M -> unit_quaternion (tail4 x) ->
  SE3_of (compute_y (TimesFrameFunction_new log6 Quaternion_of_matrix M)
            (compute_y (TimesFrameFunction_new log6 Quaternion_of_matrix (SE3_inverse M)) x))
    = SE3_of x.
Proof.
  intros Hlib HM Hx.
  rewrite (SE3_of_compute_y exp6 log6 Quaternion_of_matrix tolerance M)
    by (try apply compute_y_unit; try apply rigid_SE3_inverse; assumption).
  rewrite (SE3_of_compute_y exp6 log6 Quaternion_of_matrix tolerance (SE3_inverse M))
    by (try apply rigid_SE3_inverse; assumption).
  rewrite SE3_mul_assoc, SE3_inverse_left by (apply rigid_orthogonal, HM).
  apply SE3_mul_Identity.
Qed.

(** X22: for a rigid transform the constant Jacobian is invertible: its
    product with the adjoint matrix of the transform is the identity. *)
Theorem impl_jacobian_invertible (f : TimesFrameFunction V) (J : matrix6 V) (x : vector7 V) :
  rigid (oMi_ f) ->
  mmul6 (impl_jacobian f J x) (adjoint (oMi_ f)) = Identity6.
Proof.
  intros Hrigid. pose proof (rigid_orthogonal _ Hrigid) as Horth.
  unfold impl_jacobian, mmul6, adjoint, Identity6; simpl.
  destruct (oMi_ f) as [R t]. simpl in *.
  f_equal.
  - rewrite Horth. destruct R as [[a0 a1 a2] [a3 a4 a5] [a6 a7 a8]], t as [ta tb tc].
    componentwise.
  - destruct R as [[a0 a1 a2] [a3 a4 a5] [a6 a7 a8]], t as [ta tb tc]. componentwise.
  - destruct R as [[a0 a1 a2] [a3 a4 a5] [a6 a7 a8]]. componentwise.
  - rewrite Horth. destruct R as [[a0 a1 a2] [a3 a4 a5] [a6 a7 a8]], t as [ta tb tc].
    componentwise.
Qed.

End TimesFrameAlgebra.

(** ** The further properties on concrete paths, solvers and transforms *)

Section FurtherInstances.
Import Examples PathModel PathOps ProblemSolverModel TimesFrame.
Local Open Scope Z_scope.

(** A projector that converges: both evaluations agree. *)
Lemma call_deprecated_on_success_witness :
  snd (call_success rt_debug (parabola (-1, 1) (Some diagonal)) 1) = true /\
  call_deprecated rt_debug (parabola (-1, 1) (Some diagonal)) 1 = [1; 1].
Proof.
  split; [reflexivity |].
  rewrite (call_deprecated_on_success rt_debug (parabola (-1, 1) (Some diagonal)) 1 eq_refl).
  reflexivity.
Defined.

(** A raw failure under constraints, and a path without constraints. *)
Lemma call_out_is_at_witness :
  call_out (partial_shape (-1, 1) (Some origin)) [9; 9] (-1) = (false, [-1; 0]) /\
  call_out (parabola (0, 3) None) [9; 9] 2 = (true, [2; 4]).
Proof.
  split.
  - rewrite (call_out_is_at (partial_shape (-1, 1) (Some origin)) [9; 9] (-1));
      [reflexivity | right; reflexivity].
  - rewrite (call_out_is_at (parabola (0, 3) None) [9; 9] 2);
      [reflexivity | left; reflexivity].
Defined.

(** The timed parabola over [[1, 2]], inside its time range [[0, 3]]. *)
Lemma velocityBound_inside_witness :
  velocityBound rt_debug timed_parabola [0; 0] 1 2 = Ok [2; 20].
Proof.
  rewrite (velocityBound_inside rt_debug timed_parabola [0; 0] 1 2); reflexivity.
Defined.

(** The timed parabola over [[-1, 5]], which covers its time range. *)
Lemma velocityBound_covering_witness :
  velocityBound rt_debug timed_parabola [0; 0] (-1) 5 = Ok [2; 28].
Proof.
  rewrite (velocityBound_covering rt_debug timed_parabola [0; 0] (-1) 5); reflexivity.
Defined.

(** The parabola with the identity parameterization attached. *)
Lemma identity_parameterization_neutral_witness :
  paramRange (set_timeParameterization (parabola (0, 3) None)
                (Some identity_parameterization) (0, 3)) = (0, 3) /\
  derivative rt_debug (set_timeParameterization (parabola (0, 3) None)
                         (Some identity_parameterization) (0, 3)) [0; 0] 2 1 = Ok [1; 4] /\
  velocityBound rt_debug (set_timeParameterization (parabola (0, 3) None)
                            (Some identity_parameterization) (0, 3)) [0; 0] 1 2 = Ok [1; 4].
Proof.
  destruct (identity_parameterization_neutral rt_debug (parabola (0, 3) None) [0; 0] 2 1 2)
    as [_ [Hrange [_ [Hderivative Hbound]]]]; [reflexivity | reflexivity |].
  split; [exact Hrange | split].
  - etransitivity; [exact Hderivative | reflexivity].
  - etransitivity; [exact Hbound | reflexivity].
Defined.

(** Looking up a name in a new solver. *)
Lemma numericalConstraint_inserts_null_witness :
  NumericalConstraintMap_
    (fst (numericalConstraint (ProblemSolver_new (DifferentiableFunction := nat)
                                 (VectorOfTypes := list nat)) "gaze")) !! "gaze"
    = Some None.
Proof.
  apply (numericalConstraint_inserts_null
           (ProblemSolver_new (DifferentiableFunction := nat) (VectorOfTypes := list nat))
           "gaze").
  apply lookup_empty.
Defined.

(** Storing a comparison type for one name leaves the other alone. *)
Lemma step_other_names_witness :
  NumericalConstraintMap_ (step (run session) (ComparisonTypeSet "gaze" None)) !! "pose"
    = Some (Some 7%nat) /\
  comparisonTypeMap_ (step (run session) (ComparisonTypeSet "gaze" None)) !! "pose"
    = Some (Some (ComparisonTypes_create [0%nat])).
Proof.
  destruct (step_other_names (run session) (ComparisonTypeSet "gaze" None) "pose")
    as [Hfunction Hcomparison]; [discriminate |].
  split.
  - etransitivity; [exact Hfunction | reflexivity].
  - etransitivity; [exact Hcomparison | reflexivity].
Defined.

(** The function added by the session has the comparison types the
    session stored for it. *)
Lemma registered_has_comparisonType_witness :
  registered (run session) "pose" = Some 7%nat /\
  snd (comparisonType_get (run session) "pose")
    = Ok (Some (ComparisonTypes_create [0%nat])).
Proof.
  split; [reflexivity |].
  destruct (registered_has_comparisonType session "pose" 7%nat eq_refl)
    as [eq [Hstored Hget]].
  rewrite Hget. simpl. f_equal.
  assert (Hsession : Some eq = Some (Some (ComparisonTypes_create [0%nat])))
    by (etransitivity; [symmetry; exact Hstored | reflexivity]).
  injection Hsession as ->. reflexivity.
Defined.

End FurtherInstances.

Module MoreExamples.
Import ProblemSolverModel.
Local Open Scope Z_scope.

(** A callee that accepts every function name and changes nothing. *)
Definition accept (ps : ProblemSolver nat (list nat)) (_ _ : string)
  : ProblemSolver nat (list nat) * outcome unit :=
  (ps, Ok tt).

(** Two names bound to the same function. *)
Definition twins : list (call nat (list nat)) :=
  [ AddNumericalConstraint "right" (Some 7%nat);
    AddNumericalConstraint "left" (Some 7%nat) ].

(** Half a turn about the y axis followed by a translation. *)
Definition half_turn_y : TimesFrame.Transform3f Z :=
  {| TimesFrame.rotation := TimesFrame.toRotationMatrix (TimesFrame.Build_Quaternion_t 0 1 0 0);
     TimesFrame.translation := TimesFrame.vec3 0 0 1 |}.

(** A 6x6 matrix of zeros, to be overwritten. *)
Definition J_zero : TimesFrame.matrix6 Z :=
  {| TimesFrame.topLeftCorner := TimesFrame.setZero;
     TimesFrame.topRightCorner := TimesFrame.setZero;
     TimesFrame.bottomLeftCorner := TimesFrame.setZero;
     TimesFrame.bottomRightCorner := TimesFrame.setZero |}.

End MoreExamples.

Section FurtherInstances'.
Import Examples MoreExamples ProblemSolverModel TimesFrame.
Local Open Scope Z_scope.

Lemma twins_bindings (k : string) (f : nat) :
  NumericalConstraintMap_ (run twins) !! k = Some (Some f) ->
  f = 7%nat /\ (k = "left" \/ k = "right").
Proof.
  change (NumericalConstraintMap_ (run twins))
    with (<["left" := Some 7%nat]> (<["right" := Some 7%nat]>
            (∅ : gmap string (option nat)))).
  intros Hk.
  destruct (decide ("left" = k)) as [<- | Hl].
  - rewrite lookup_insert_eq in Hk. injection Hk as <-. auto.
  - rewrite lookup_insert_ne in Hk by exact Hl.
    destruct (decide ("right" = k)) as [<- | Hr].
    + rewrite lookup_insert_eq in Hk. injection Hk as <-. auto.
    + rewrite lookup_insert_ne, lookup_empty in Hk by exact Hr. discriminate.
Qed.

Example twins_last_key_wins :
  comparisonTypeMap_
    (fst (addConstraintToConfigProjector accept (run twins) "projector" (Some 7%nat)
            (Some Equality_create)))
  = <["right" := Some Equality_create]> (comparisonTypeMap_ (run twins)).
Proof. vm_compute. reflexivity. Qed.

(** A function no name is bound to. *)
Lemma addConstraintToConfigProjector_unknown_witness :
  addConstraintToConfigProjector accept (run twins) "projector" (Some 8%nat)
    (Some Equality_create)
  = (run twins, Thrown (std_runtime_error "constraint is not in the map")).
Proof.
  apply (addConstraintToConfigProjector_unknown accept (run twins) "projector"
           (Some 8%nat) (Some Equality_create)).
  intros k Hk. apply twins_bindings in Hk as [Hf _]. discriminate Hf.
Defined.

(** A function two names are bound to. *)
Lemma addConstraintToConfigProjector_known_witness :
  NumericalConstraintMap_ (run twins) !! "left" = Some (Some 7%nat) /\
  exists functionName,
    String.leb "left" functionName = true /\
    addConstraintToConfigProjector accept (run twins) "projector" (Some 7%nat)
      (Some Equality_create)
    = accept {| NumericalConstraintMap_ := NumericalConstraintMap_ (run twins);
                comparisonTypeMap_ :=
                  <[functionName := Some Equality_create]> (comparisonTypeMap_ (run twins)) |}
        "projector" functionName.
Proof.
  split; [reflexivity |].
  destruct (addConstraintToConfigProjector_known accept (run twins) "projector" "left"
              (Some 7%nat) (Some Equality_create) eq_refl)
    as [functionName [_ [Hlast Hcall]]].
  exists functionName. split; [apply Hlast; reflexivity | exact Hcall].
Defined.

Lemma rigid_half_turn_y : rigid half_turn_y.
Proof. exists (Build_Quaternion_t 0 1 0 0). split; reflexivity. Qed.

(** A unit input and a unit stored quaternion. *)
Lemma compute_y_norm_witness :
  unit_quaternion
    (tail4 (compute_y (TimesFrameFunction_new Z_log6 Z_Quaternion_of_matrix half_turn_x)
              pose_z)).
Proof.
  apply (compute_y_norm (TimesFrameFunction_new Z_log6 Z_Quaternion_of_matrix half_turn_x)
           pose_z); reflexivity.
Defined.

(** Half a turn about x, then half a turn about y. *)
Lemma compute_y_compose_witness :
  SE3_of (compute_y (TimesFrameFunction_new Z_log6 Z_Quaternion_of_matrix half_turn_y)
            (compute_y (TimesFrameFunction_new Z_log6 Z_Quaternion_of_matrix half_turn_x)
               pose_z))
  = SE3_of (compute_y (TimesFrameFunction_new Z_log6 Z_Quaternion_of_matrix
                         (SE3_mul half_turn_x half_turn_y)) pose_z).
Proof.
  apply (compute_y_compose Z_exp6 Z_log6 Z_Quaternion_of_matrix 1 half_turn_x half_turn_y
           pose_z Z_library_contract rigid_half_turn_x rigid_half_turn_y).
  reflexivity.
Defined.

(** Half a turn about x, undone. *)
Lemma compute_y_inverse_witness :
  SE3_of (compute_y (TimesFrameFunction_new Z_log6 Z_Quaternion_of_matrix half_turn_x)
            (compute_y (TimesFrameFunction_new Z_log6 Z_Quaternion_of_matrix
                          (SE3_inverse half_turn_x)) pose_z))
  = SE3_of pose_z.
Proof.
  apply (compute_y_inverse Z_exp6 Z_log6 Z_Quaternion_of_matrix 1 half_turn_x pose_z
           Z_library_contract rigid_half_turn_x).
  reflexivity.
Defined.

(** The Jacobian of half a turn about x. *)
Lemma impl_jacobian_invertible_witness :
  mmul6 (impl_jacobian (TimesFrameFunction_new Z_log6 Z_Quaternion_of_matrix half_turn_x)
           J_zero pose_z)
        (adjoint half_turn_x)
  = Identity6.
Proof.
  apply (impl_jacobian_invertible
           (TimesFrameFunction_new Z_log6 Z_Quaternion_of_matrix half_turn_x) J_zero pose_z).
  exact rigid_half_turn_x.
Defined.

End FurtherInstances'.
